(** * Pipeline1: the preprocessing transformers of [solution/Pipeline1.py]

    A shallow embedding of the custom scikit-learn transformers and of the
    pipeline built from them.  Tables are pandas DataFrames, which the
    transformers receive by reference and, for three of them, assign into.
    The store of tables is therefore explicit, and every transformer is a
    computation over references in a state-and-exception monad. *)

From stdpp Require Import base list gmap strings sorting pretty.
From Stdlib Require Import ZArith Lia.

Local Open Scope Z_scope.
Local Open Scope string_scope.
Local Open Scope list_scope.

(** ** Data model *)

(** The dtypes that occur in the Adult table. *)
Inductive Dtype := int64 | float64 | object | category.

(** A cell of a column.  [NaN] is the missing value; numeric cells hold
    whole numbers, text cells hold a label. *)
Inductive Cell := NaN | Num (z : Z) | Str (s : string).

(** A pandas Series: the dtype, the category vocabulary (meaningful for
    dtype [category] only) and the row values. *)
Record Series := mkSeries {
  dtype : Dtype;
  categories : list Cell;
  values : list Cell
}.

(** A pandas DataFrame: the length of its row index and its labelled
    columns, in order.  Column labels are unique in every table the
    pipeline is meant for; lemmas that depend on this say so. *)
Record DataFrame := mkFrame {
  index : nat;
  columns : list (string * Series)
}.

#[global] Instance Dtype_eq_dec : EqDecision Dtype.
Proof. solve_decision. Defined.
#[global] Instance Cell_eq_dec : EqDecision Cell.
Proof. solve_decision. Defined.
#[global] Instance Series_eq_dec : EqDecision Series.
Proof. solve_decision. Defined.
#[global] Instance DataFrame_eq_dec : EqDecision DataFrame.
Proof. solve_decision. Defined.

Definition names (X : DataFrame) : list string := (columns X).*1.

Definition is_nan (c : Cell) : bool :=
  match c with NaN => true | _ => false end.

(** ** Exceptions and results *)

Inductive Exn :=
| KeyError (key : string)
    (* raised by pandas for a label that is not a column *)
| KeyError_columns (missing : gset string)
    (* the KeyError re-raised by ColumnSelector, with its column list *)
| ValueError (msg : string)
| AttributeError (msg : string)
| IndexError
| TypeError
| NameError
| Exception_ (msg : string).

Inductive result (A : Type) :=
| Ok (a : A)
| Raise (e : Exn).
Arguments Ok {A} a.
Arguments Raise {A} e.

(** ** The store of tables and the monad of transformers *)

(** A reference to a DataFrame object. *)
Definition ref := nat.

Abbreviation Store := (list DataFrame).

(** A computation reads and updates the store; an exception keeps the
    updates made before it was raised, as in Python. *)
Definition M (A : Type) : Type := Store → result A * Store.

Definition ret {A} (a : A) : M A := λ σ, (Ok a, σ).

Definition bind {A B} (m : M A) (k : A → M B) : M B :=
  λ σ, match m σ with
       | (Ok a, σ') => k a σ'
       | (Raise e, σ') => (Raise e, σ')
       end.

Definition raise {A} (e : Exn) : M A := λ σ, (Raise e, σ).

Definition lift {A} (r : result A) : M A := λ σ, (r, σ).

#[global] Instance M_ret : MRet M := @ret.
#[global] Instance M_bind : MBind M := λ A B k m, bind m k.

(** Dereference [x]. *)
Definition read (x : ref) : M DataFrame :=
  λ σ, match σ !! x with
       | Some X => (Ok X, σ)
       | None => (Raise NameError, σ)
       end.

(** Overwrite the object behind [x]: every holder of [x] sees the change. *)
Definition write (x : ref) (X : DataFrame) : M unit :=
  λ σ, (Ok tt, <[x := X]> σ).

(** A new object. *)
Definition alloc (X : DataFrame) : M ref :=
  λ σ, (Ok (List.length σ), σ ++ [X]).

(** [for a in l: body(a)] *)
Fixpoint for_each {A} (l : list A) (body : A → M unit) : M unit :=
  match l with
  | [] => ret tt
  | a :: l' => body a;; for_each l' body
  end.

(** ** Ordering and uniqueness of cells *)

(** Python compares numbers by value and strings by code point, which for
    byte strings is the lexicographic order of [String.leb].  The order is
    made total here (NaN first, numbers before text); the library functions
    below only sort columns that are [sortable], where it is Python's. *)
Definition cell_leb (a b : Cell) : bool :=
  match a, b with
  | NaN, _ => true
  | _, NaN => false
  | Num x, Num y => (x <=? y)%Z
  | Num _, Str _ => true
  | Str _, Num _ => false
  | Str s, Str t => String.leb s t
  end.

Definition cell_le (a b : Cell) : Prop := cell_leb a b = true.

Definition cell_lt (a b : Cell) : Prop := cell_leb b a = false.

#[global] Instance cell_le_dec : RelDecision cell_le.
Proof. intros a b. unfold cell_le. apply _. Defined.
#[global] Instance cell_lt_dec : RelDecision cell_lt.
Proof. intros a b. unfold cell_lt. apply _. Defined.

Definition is_num (c : Cell) : bool :=
  match c with Num _ => true | _ => false end.

Definition is_str (c : Cell) : bool :=
  match c with Str _ => true | _ => false end.

(** All numbers or all text: the lists Python's [sorted] accepts. *)
Definition sortable (l : list Cell) : bool :=
  forallb is_num l || forallb is_str l.

(** The distinct elements, in order of first appearance. *)
Fixpoint unique (l : list Cell) : list Cell :=
  match l with
  | [] => []
  | c :: l' => c :: filter (λ d, d ≠ c) (unique l')
  end.

(** [sorted(set(l))] *)
Definition sorted_unique (l : list Cell) : list Cell :=
  merge_sort cell_le (unique l).

(** Position of the first occurrence of [v] ([length l] when absent). *)
Fixpoint index_of (v : Cell) (l : list Cell) : nat :=
  match l with
  | [] => 0
  | c :: l' => if decide (c = v) then 0%nat else S (index_of v l')
  end.

(** ** pandas operations used by the transformers *)

Fixpoint lookup_col (col : string) (cs : list (string * Series)) : option Series :=
  match cs with
  | [] => None
  | (n, s) :: cs' => if decide (n = col) then Some s else lookup_col col cs'
  end.

(** [X.loc[:, col]] as an expression. *)
Definition loc_get (X : DataFrame) (col : string) : result Series :=
  match lookup_col col (columns X) with
  | Some s => Ok s
  | None => Raise (KeyError col)
  end.

(** [X.loc[:, col] = s]: with the full row slice the column is reassigned,
    values and dtype (the pipeline relies on it: the categorical branch
    selects by the dtype that CustomTypeTransformer assigns).  An absent
    label is appended. *)
Definition loc_set (X : DataFrame) (col : string) (s : Series) : DataFrame :=
  if decide (col ∈ names X) then
    mkFrame (index X)
      (map (λ p, if decide (p.1 = col) then (col, s) else p) (columns X))
  else mkFrame (index X) (columns X ++ [(col, s)]).

(** [X[cols]] with a list of labels: a new table with the requested
    columns in the requested order; KeyError when a label is absent. *)
Definition getitem_list (X : DataFrame) (cols : list string) : result DataFrame :=
  if decide (Forall (λ c, c ∈ names X) cols) then
    Ok (mkFrame (index X)
          (flat_map (λ c, filter (λ p, p.1 = c) (columns X)) cols))
  else Raise (KeyError "not in index").

(** [X.select_dtypes(include=dtypes)]: a new table with the columns whose
    dtype is listed, in the order of [X]; the row index is kept. *)
Definition select_dtypes (X : DataFrame) (include : list Dtype) : result DataFrame :=
  match include with
  | [] => Raise (ValueError "at least one of include or exclude must be nonempty")
  | _ => Ok (mkFrame (index X) (filter (λ p, dtype p.2 ∈ include) (columns X)))
  end.

(** [s.astype('category')]: the vocabulary is the distinct present values,
    sorted when sortable and in order of appearance otherwise; a column
    that is categorical already is returned as it is. *)
Definition astype_category (s : Series) : Series :=
  match dtype s with
  | category => s
  | _ =>
      let present := filter (λ c, c ≠ NaN) (values s) in
      mkSeries category
        (if sortable present then sorted_unique present else unique present)
        (values s)
  end.

(** [s.cat.add_categories(c)] *)
Definition cat_add_categories (s : Series) (c : Cell) : result Series :=
  match dtype s with
  | category =>
      if decide (c ∈ categories s)
      then Raise (ValueError "new categories must not include old categories")
      else Ok (mkSeries category (categories s ++ [c]) (values s))
  | _ => Raise (AttributeError "Can only use .cat accessor with a 'category' dtype")
  end.

Definition fill (v c : Cell) : Cell := if is_nan c then v else c.

(** [s.fillna(v)]; a categorical column only takes one of its categories.
    The transformers fill a column of another dtype with one of its own
    values, which keeps the dtype. *)
Definition fillna (s : Series) (v : Cell) : result Series :=
  match dtype s with
  | category =>
      if decide (v ∈ categories s)
      then Ok (mkSeries category (categories s) (fill v <$> values s))
      else Raise (ValueError "fill value must be in categories")
  | d => Ok (mkSeries d (categories s) (fill v <$> values s))
  end.

Definition count_of (c : Cell) (l : list Cell) : nat :=
  List.length (filter (λ d, d = c) l).

(** Stable insertion by descending count. *)
Fixpoint insert_desc (p : Cell * nat) (l : list (Cell * nat)) : list (Cell * nat) :=
  match l with
  | [] => [p]
  | q :: l' => if decide (p.2 < q.2)%nat then q :: insert_desc p l' else p :: q :: l'
  end.

Definition sort_desc (l : list (Cell * nat)) : list (Cell * nat) :=
  foldr insert_desc [] l.

(** [s.value_counts()]: the counts of the present values, most frequent
    first.  A categorical column has one entry per category, also for
    those that do not occur. *)
Definition value_counts (s : Series) : list (Cell * nat) :=
  let keys :=
    match dtype s with
    | category => categories s
    | _ => unique (filter (λ c, c ≠ NaN) (values s))
    end in
  sort_desc (map (λ c, (c, count_of c (values s))) keys).

(** [counts.index[0]] *)
Definition index0 (counts : list (Cell * nat)) : result Cell :=
  match counts with
  | [] => Raise IndexError
  | (c, _) :: _ => Ok c
  end.

(** ** The transformers *)

Definition is_KeyError (e : Exn) : bool :=
  match e with
  | KeyError _ | KeyError_columns _ => true
  | _ => false
  end.

(** [ColumnSelector(columns).transform(X)] *)
Definition ColumnSelector_transform (cols : list string) (x : ref) : M ref :=
  X ← read x;
  match getitem_list X cols with
  | Ok Y => alloc Y
  | Raise e =>
      if is_KeyError e then
        let cols_error : gset string := list_to_set cols ∖ list_to_set (names X) in
        raise (KeyError_columns cols_error)
      else raise e
  end.

(** [X.loc[:, col] = X.loc[:, col].astype('category')] *)
Definition coerce (x : ref) (col : string) : M unit :=
  X ← read x;
  s ← lift (loc_get X col);
  write x (loc_set X col (astype_category s)).

(** [CustomTypeTransformer().transform(X)] *)
Definition CustomTypeTransformer_transform (x : ref) : M ref :=
  coerce x "workclass";;
  coerce x "education";;
  coerce x "marital-status";;
  coerce x "occupation";;
  coerce x "relationship";;
  coerce x "race";;
  coerce x "sex";;
  coerce x "native-country";;
  mret x.

(** [TypeSelector(dtypes).transform(X)] *)
Definition TypeSelector_transform (dtypes : list Dtype) (x : ref) : M ref :=
  X ← read x;
  Y ← lift (select_dtypes X dtypes);
  alloc Y.

(** The body of the loop of [MissingCategoricalsTransformer.transform]. *)
Definition fill_missing (strategy : string) (x : ref) (col : string) : M unit :=
  if decide (strategy = "none") then
    X ← read x;
    s ← lift (loc_get X col);
    s1 ← lift (cat_add_categories s (Str "Unknown"));
    s2 ← lift (fillna s1 (Str "Unknown"));
    write x (loc_set X col s2)
  else if decide (strategy = "most_frequent") then
    X ← read x;
    s ← lift (loc_get X col);
    top ← lift (index0 (value_counts s));
    s2 ← lift (fillna s top);
    write x (loc_set X col s2)
  else raise (Exception_ "Unknown strategy to fill na categoricals").

(** [MissingCategoricalsTransformer(strategy).transform(X)] *)
Definition MissingCategoricalsTransformer_transform
    (strategy : string) (x : ref) : M ref :=
  X ← read x;
  for_each (names X) (fill_missing strategy x);;
  mret x.

(** The output of the pipeline: rows of floating-point numbers. *)
Record Matrix (F : Type) := mkMatrix {
  ncols : nat;
  rows : list (list F)
}.
Arguments mkMatrix {F} ncols rows.
Arguments ncols {F} m.
Arguments rows {F} m.

(** The table that SparseToDataFrameTransformer returns. *)
Record FloatFrame (F : Type) := mkFloatFrame {
  labels : list string;
  records : list (list F)
}.
Arguments mkFloatFrame {F} labels records.
Arguments labels {F} f.
Arguments records {F} f.

Section Pipeline.

(** The scikit-learn estimators of the pipeline, as fitted.  [F] is the
    type of double-precision numbers. *)
Context {F : Type}.
Variable StandardScaler_transform : DataFrame → result (Matrix F).
Variable OneHotEncoder_transform : DataFrame → result (Matrix F).

(** What [LabelEncoder().fit_transform] does with a column that holds
    NaN differs between scikit-learn releases. *)
Variable LabelEncoder_on_nan : list Cell → result (list Z).

(** [LabelEncoder().fit_transform(y)]: the classes are the sorted
    distinct labels and each label is replaced by the position of its
    class. *)
Definition LabelEncoder_fit_transform (y : list Cell) : result (list Z) :=
  if existsb is_nan y then LabelEncoder_on_nan y
  else if sortable y then
    let classes := sorted_unique y in
    Ok ((λ v, Z.of_nat (index_of v classes)) <$> y)
  else Raise TypeError.

(** The body of the loop of [PipelineAwareLabelEncoder.transform]. *)
Definition encode_column (x : ref) (col : string) : M unit :=
  X ← read x;
  s ← lift (loc_get X col);
  codes ← lift (LabelEncoder_fit_transform (values s));
  write x (loc_set X col (mkSeries int64 [] (Num <$> codes))).

(** [PipelineAwareLabelEncoder().transform(X)] *)
Definition PipelineAwareLabelEncoder_transform (x : ref) : M ref :=
  X ← read x;
  for_each (names X) (encode_column x);;
  mret x.

(** [SparseToDataFrameTransformer().transform(X)] *)
Definition SparseToDataFrameTransformer_transform (m : Matrix F) : FloatFrame F :=
  mkFloatFrame (pretty <$> seq 0 (ncols m)) (rows m).

(** Column-wise concatenation of the branch outputs. *)
Definition hstack (a b : Matrix F) : result (Matrix F) :=
  if decide (List.length (rows a) = List.length (rows b)) then
    Ok (mkMatrix (ncols a + ncols b) (zip_with app (rows a) (rows b)))
  else Raise (ValueError "blocks[0,:] has incompatible row dimensions").

Definition selected_columns : list string :=
  ["age"; "workclass"; "education-num"; "marital-status"; "occupation";
   "relationship"; "race"; "sex"; "capital-gain"; "capital-loss";
   "hours-per-week"; "native-country"].

(** The table handed to StandardScaler by the branch [numeric_features]. *)
Definition numeric_selection (x : ref) : M ref :=
  TypeSelector_transform [int64] x.

Definition numeric_features (x : ref) : M (Matrix F) :=
  n ← numeric_selection x;
  N ← read n;
  lift (StandardScaler_transform N).

Definition categorical_features (x : ref) : M (Matrix F) :=
  c ← TypeSelector_transform [category] x;
  c ← MissingCategoricalsTransformer_transform "none" c;
  c ← PipelineAwareLabelEncoder_transform c;
  C ← read c;
  lift (OneHotEncoder_transform C).

(** [FeatureUnion.transform]: every branch receives the same table. *)
Definition FeatureUnion_transform (x : ref) : M (Matrix F) :=
  a ← numeric_features x;
  b ← categorical_features x;
  lift (hstack a b).

(** [preprocess_pipeline.transform(X)] *)
Definition preprocess_pipeline_transform (x : ref) : M (FloatFrame F) :=
  x ← CustomTypeTransformer_transform x;
  x ← ColumnSelector_transform selected_columns x;
  m ← FeatureUnion_transform x;
  mret (SparseToDataFrameTransformer_transform m).

End Pipeline.

(** ** Specification-side definitions *)

(** The code the specification gives a label: labels are numbered by
    ascending sort order, so a label's code is the number of distinct
    labels of the column that sort strictly before it. *)
Definition rank (y : list Cell) (v : Cell) : nat :=
  List.length (filter (λ u, cell_lt u v) (unique y)).

(** The number of distinct values of a column. *)
Definition n_distinct (y : list Cell) : nat := List.length (unique y).

Definition label_codes (y : list Cell) : list Z :=
  (λ v, Z.of_nat (rank y v)) <$> y.

(** ** Functional reading of the in-place loops *)

Definition and_then {A B} (r : result A) (k : A → result B) : result B :=
  match r with
  | Ok a => k a
  | Raise e => Raise e
  end.

(** [X.loc[:, col] = f(X.loc[:, col])], the shape of every loop body. *)
Definition assign_column (f : Series → result Series) (x : ref) (col : string) : M unit :=
  X ← read x;
  s ← lift (loc_get X col);
  s' ← lift (f s);
  write x (loc_set X col s').

(** The columns after a loop that reassigns them one by one through [f],
    and its outcome: the loop stops at the first exception and the columns
    reassigned before it stay reassigned. *)
Fixpoint assign_columns (f : Series → result Series) (cs : list (string * Series))
    : result unit * list (string * Series) :=
  match cs with
  | [] => (Ok tt, [])
  | (n, s) :: cs' =>
      match f s with
      | Ok s' => let '(r, cs'') := assign_columns f cs' in (r, (n, s') :: cs'')
      | Raise e => (Raise e, (n, s) :: cs')
      end
  end.

(** The value of a transformer that ends in [return X]. *)
Definition outcome (x : ref) (r : result unit) : result ref :=
  match r with
  | Ok _ => Ok x
  | Raise e => Raise e
  end.

(** ** Functional reading of CustomTypeTransformer *)

Definition categorical_columns : list string :=
  ["workclass"; "education"; "marital-status"; "occupation"; "relationship";
   "race"; "sex"; "native-country"].

Definition numeric_columns : list string :=
  ["age"; "education-num"; "capital-gain"; "capital-loss"; "hours-per-week"].

(** The columns of the Adult table that the pipeline touches. *)
Definition adult_columns : list string :=
  ["age"; "workclass"; "education"; "education-num"; "marital-status";
   "occupation"; "relationship"; "race"; "sex"; "capital-gain"; "capital-loss";
   "hours-per-week"; "native-country"].

(** The table after [X.loc[:, col] = X.loc[:, col].astype('category')]. *)
Definition coerce_table (X : DataFrame) (col : string) : result DataFrame :=
  and_then (loc_get X col) (λ s, Ok (loc_set X col (astype_category s))).

(** The table after a sequence of such statements and their outcome. *)
Fixpoint coerce_all (cols : list string) (X : DataFrame) : result unit * DataFrame :=
  match cols with
  | [] => (Ok tt, X)
  | c :: cs =>
      match coerce_table X c with
      | Ok X' => coerce_all cs X'
      | Raise e => (Raise e, X)
      end
  end.

(** A column that is categorical already. *)
Definition coerced (X : DataFrame) (c : string) : Prop :=
  ∃ s, lookup_col c (columns X) = Some s ∧ dtype s = category.

(** The statements of a transformer that coerces [cols] and ends in [k]. *)
Fixpoint coerce_each {A} (x : ref) (cols : list string) (k : M A) : M A :=
  match cols with
  | [] => k
  | c :: cs => coerce x c;; coerce_each x cs k
  end.

(** The columns of [X] with the labels [cols], in the order of [cols]. *)
Definition select (X : DataFrame) (cols : list string) : list (string * Series) :=
  omap (λ c, pair c <$> lookup_col c (columns X)) cols.

(** The steps of [preprocess_pipeline.transform] that lead to the table
    handed to StandardScaler. *)
Definition numeric_branch_input (x : ref) : M ref :=
  x ← CustomTypeTransformer_transform x;
  x ← ColumnSelector_transform selected_columns x;
  numeric_selection x.

(** What the imputer assigns to a column, per strategy. *)
Definition fill_unknown (s : Series) : result Series :=
  and_then (cat_add_categories s (Str "Unknown")) (λ s1, fillna s1 (Str "Unknown")).

Definition fill_most_frequent (s : Series) : result Series :=
  and_then (index0 (value_counts s)) (λ top, fillna s top).

(** The value the most-frequent strategy fills a column with. *)
Definition most_frequent (s : Series) : Cell :=
  match value_counts s with
  | (c, _) :: _ => c
  | [] => NaN
  end.

(** What the label encoder assigns to a column. *)
Definition encoded (on_nan : list Cell → result (list Z)) (s : Series) : result Series :=
  and_then (LabelEncoder_fit_transform on_nan (values s))
    (λ codes, Ok (mkSeries int64 [] (Num <$> codes))).

(** ** Functional reading of the pipeline *)

Section PipelineValue.

Context {F : Type}.
Variable StandardScaler_transform : DataFrame → result (Matrix F).
Variable OneHotEncoder_transform : DataFrame → result (Matrix F).
Variable LabelEncoder_on_nan : list Cell → result (list Z).

(** What each branch of the union returns for the table [Y]. *)
Definition numeric_value (Y : DataFrame) : result (Matrix F) :=
  and_then (select_dtypes Y [int64]) StandardScaler_transform.

Definition categorical_value (Y : DataFrame) : result (Matrix F) :=
  and_then (select_dtypes Y [category]) (λ C,
    let filled := assign_columns fill_unknown (columns C) in
    and_then filled.1 (λ _,
      let coded := assign_columns (encoded LabelEncoder_on_nan) filled.2 in
      and_then coded.1 (λ _,
        OneHotEncoder_transform (mkFrame (index C) coded.2)))).

Definition union_value (Y : DataFrame) : result (Matrix F) :=
  and_then (numeric_value Y) (λ a,
    and_then (categorical_value Y) (λ b, hstack a b)).

(** What ColumnSelector returns for the table [X]. *)
Definition selected_value (X : DataFrame) : result DataFrame :=
  match getitem_list X selected_columns with
  | Ok Y => Ok Y
  | Raise _ =>
      Raise (KeyError_columns (list_to_set selected_columns ∖ list_to_set (names X)))
  end.

(** What [preprocess_pipeline.transform] returns for the table [X]. *)
Definition pipeline_value (X : DataFrame) : result (FloatFrame F) :=
  let coerced := coerce_all categorical_columns X in
  and_then coerced.1 (λ _,
    and_then (selected_value coerced.2) (λ Y,
      and_then (union_value Y) (λ m,
        Ok (SparseToDataFrameTransformer_transform m)))).

End PipelineValue.

(** ** Effects on the store *)

(** [m] writes to no table but the one behind [x], creates none, and
    leaves that table with the column labels and the row index it had. *)
Definition assigns_only {A} (x : ref) (m : M A) : Prop :=
  ∀ (σ : Store) X, σ !! x = Some X →
    ∃ X', (m σ).2 = <[x := X']> σ ∧ names X' = names X ∧ index X' = index X.

(** The categorical columns among the twelve that the pipeline selects. *)
Definition selected_categorical : list string :=
  ["workclass"; "marital-status"; "occupation"; "relationship"; "race"; "sex";
   "native-country"].

(** A text column as the categorical branch hands it to the one-hot
    encoder: missing cells take the label "Unknown", then every label is
    replaced by its code. *)
Definition filled_codes (s : Series) : Series :=
  mkSeries int64 [] (Num <$> label_codes (fill (Str "Unknown") <$> values s)).

(** ** Example tables *)

(** Three records of the Adult table, read from text: the categorical
    columns have dtype object and one work class is missing. *)
Definition adult_sample : DataFrame :=
  mkFrame 3
    [("age", mkSeries int64 [] [Num 39; Num 50; Num 38]);
     ("workclass", mkSeries object [] [Str "State-gov"; NaN; Str "Private"]);
     ("education", mkSeries object [] [Str "Bachelors"; Str "Bachelors"; Str "HS-grad"]);
     ("education-num", mkSeries int64 [] [Num 13; Num 13; Num 9]);
     ("marital-status", mkSeries object []
        [Str "Never-married"; Str "Married-civ-spouse"; Str "Divorced"]);
     ("occupation", mkSeries object []
        [Str "Adm-clerical"; Str "Exec-managerial"; Str "Handlers-cleaners"]);
     ("relationship", mkSeries object []
        [Str "Not-in-family"; Str "Husband"; Str "Not-in-family"]);
     ("race", mkSeries object [] [Str "White"; Str "White"; Str "White"]);
     ("sex", mkSeries object [] [Str "Male"; Str "Male"; Str "Male"]);
     ("capital-gain", mkSeries int64 [] [Num 2174; Num 0; Num 0]);
     ("capital-loss", mkSeries int64 [] [Num 0; Num 0; Num 0]);
     ("hours-per-week", mkSeries int64 [] [Num 40; Num 13; Num 40]);
     ("native-country", mkSeries object []
        [Str "United-States"; Str "United-States"; Str "United-States"])].

(** The same records with one age missing, which makes pandas store the
    column as float64. *)
Definition adult_float_age : DataFrame :=
  mkFrame 3
    (("age", mkSeries float64 [] [Num 39; NaN; Num 38]) :: tail (columns adult_sample)).

(** A table of label columns, as the imputer leaves it. *)
Definition label_table : DataFrame :=
  mkFrame 4
    [("workclass", mkSeries category [Str "Private"; Str "Self-emp"; Str "Unknown"]
        [Str "Private"; Str "Self-emp"; Str "Private"; Str "Unknown"]);
     ("sex", mkSeries category [Str "Female"; Str "Male"; Str "Unknown"]
        [Str "Male"; Str "Female"; Str "Female"; Str "Male"])].

(** A categorical table with missing cells. *)
Definition gaps_table : DataFrame :=
  mkFrame 3
    [("workclass", mkSeries category [Str "Private"; Str "State-gov"]
        [Str "State-gov"; NaN; Str "State-gov"]);
     ("sex", mkSeries category [Str "Female"; Str "Male"] [NaN; Str "Male"; NaN])].

(** A categorical column whose vocabulary has the label "Unknown" already
    and one missing cell. *)
Definition unknown_table : DataFrame :=
  mkFrame 2
    [("workclass", mkSeries category [Str "Private"; Str "Unknown"] [Str "Unknown"; NaN])].

(** A categorical column with a vocabulary and every cell missing. *)
Definition all_missing_table : DataFrame :=
  mkFrame 2
    [("workclass", mkSeries category [Str "Private"; Str "State-gov"] [NaN; NaN])].

(** A table with rows and no column, as TypeSelector returns it when no
    column has a requested dtype. *)
Definition no_columns_table : DataFrame := mkFrame 3 [].

(** The sample without the column occupation, and without the column age. *)
Definition adult_no_occupation : DataFrame :=
  mkFrame 3 (filter (λ p, p.1 ≠ "occupation") (columns adult_sample)).

Definition adult_no_age : DataFrame := mkFrame 3 (tail (columns adult_sample)).

(** A categorical column followed by a text column that was not coerced. *)
Definition half_coerced_table : DataFrame :=
  mkFrame 2
    [("sex", mkSeries category [Str "Female"; Str "Male"] [Str "Male"; NaN]);
     ("workclass", mkSeries object [] [Str "Private"; NaN])].

(** A column of numbers and a column of text, nothing missing. *)
Definition kinds_table : DataFrame :=
  mkFrame 3
    [("age", mkSeries int64 [] [Num 39; Num 50; Num 39]);
     ("sex", mkSeries object [] [Str "Male"; Str "Female"; Str "Male"])].

(** A text column followed by a column that mixes a number and text. *)
Definition mixed_table : DataFrame :=
  mkFrame 2
    [("sex", mkSeries object [] [Str "Male"; Str "Female"]);
     ("grade", mkSeries object [] [Num 1; Str "one"])].

(** A categorical column, nothing missing, whose labels are a number and a
    text. *)
Definition mixed_category_table : DataFrame :=
  mkFrame 2
    [("grade", mkSeries category [Num 1; Str "one"] [Num 1; Str "one"])].

(** Stand-ins for the fitted estimators: one row per record. *)
Definition sample_scaler (X : DataFrame) : result (Matrix Z) :=
  Ok (mkMatrix (List.length (columns X))
        (replicate (index X) (replicate (List.length (columns X)) 0))).

Definition sample_on_nan (y : list Cell) : result (list Z) := Raise TypeError.

(** * Properties *)

(** ** The order on cells *)

Lemma cell_le_refl a : cell_le a a.
Proof.
  destruct a as [|z|s]; unfold cell_le; simpl; [done|lia|].
  apply Is_true_true. change (String.le s s). reflexivity.
Qed.

Lemma cell_le_trans a b c : cell_le a b → cell_le b c → cell_le a c.
Proof.
  unfold cell_le.
  destruct a as [|x|s], b as [|y|t], c as [|z|u]; simpl; try done; try lia.
  rewrite <- !Is_true_true. change (String.le s t → String.le t u → String.le s u).
  intros. by etrans.
Qed.

Lemma cell_le_antisym a b : cell_le a b → cell_le b a → a = b.
Proof.
  unfold cell_le.
  destruct a as [|x|s], b as [|y|t]; simpl; try done.
  - intros. f_equal. lia.
  - intros. f_equal. by apply String.leb_antisym.
Qed.

Lemma cell_le_total a b : cell_le a b ∨ cell_le b a.
Proof.
  unfold cell_le.
  destruct a as [|x|s], b as [|y|t]; simpl; auto.
  - lia.
  - apply String.leb_total.
Qed.

(** On labels the order is the order of strings. *)
Lemma cell_lt_Str s t : cell_lt (Str s) (Str t) ↔ String.ltb s t = true.
Proof.
  unfold cell_lt, String.ltb. cbn [cell_leb]. unfold String.leb.
  rewrite (String.compare_antisym t s).
  destruct (String.compare s t); cbn; split; congruence.
Qed.

#[global] Instance cell_le_Transitive : Transitive cell_le.
Proof. exact cell_le_trans. Qed.
#[global] Instance cell_le_Total : Total cell_le.
Proof. exact cell_le_total. Qed.

Lemma cell_lt_irrefl a : ¬ cell_lt a a.
Proof. unfold cell_lt. pose proof (cell_le_refl a) as H. unfold cell_le in H. congruence. Qed.

Lemma cell_lt_le a b : cell_lt a b → cell_le a b.
Proof.
  unfold cell_lt. destruct (cell_le_total a b) as [H|H]; [done|].
  unfold cell_le in H. congruence.
Qed.

Lemma cell_lt_iff a b : cell_lt a b ↔ cell_le a b ∧ a ≠ b.
Proof.
  split.
  - intros H. split; [by apply cell_lt_le|]. intros ->. by apply cell_lt_irrefl in H.
  - intros [H Hne]. unfold cell_lt. destruct (cell_leb b a) eqn:E; [|done].
    destruct Hne. by apply cell_le_antisym.
Qed.

Lemma cell_not_lt a b : ¬ cell_lt a b ↔ cell_le b a.
Proof. unfold cell_lt, cell_le. destruct (cell_leb b a); split; congruence. Qed.

Lemma cell_lt_le_trans a b c : cell_lt a b → cell_le b c → cell_lt a c.
Proof.
  intros [Hab Hne]%cell_lt_iff Hbc. apply cell_lt_iff. split; [by etrans|].
  intros ->. destruct Hne. by apply cell_le_antisym.
Qed.

(** ** Distinct values and sorting *)

Lemma elem_of_unique l c : c ∈ unique l ↔ c ∈ l.
Proof.
  induction l as [|d l IH]; simpl; [done|].
  rewrite !elem_of_cons, list_elem_of_filter, IH.
  destruct (decide (c = d)); tauto.
Qed.

Lemma NoDup_unique l : NoDup (unique l).
Proof.
  induction l as [|d l IH]; simpl; [constructor|].
  apply NoDup_cons. split.
  - rewrite list_elem_of_filter. tauto.
  - by apply NoDup_filter.
Qed.

Lemma sorted_unique_perm l : sorted_unique l ≡ₚ unique l.
Proof. apply merge_sort_Permutation. Qed.

Lemma sorted_unique_sorted l : StronglySorted cell_le (sorted_unique l).
Proof. apply StronglySorted_merge_sort; apply _. Qed.

Lemma elem_of_sorted_unique l c : c ∈ sorted_unique l ↔ c ∈ l.
Proof. by rewrite sorted_unique_perm, elem_of_unique. Qed.

Lemma NoDup_sorted_unique l : NoDup (sorted_unique l).
Proof. rewrite sorted_unique_perm. apply NoDup_unique. Qed.

Lemma filter_below_nil l v :
  Forall (cell_le v) l → filter (λ u, cell_lt u v) l = [].
Proof.
  induction 1 as [|d l Hd _ IH]; [done|].
  rewrite filter_cons_False; [done|]. by apply cell_not_lt.
Qed.

(** In a sorted list without repetition, the position of an element is the
    number of elements below it. *)
Lemma index_of_sorted l v :
  StronglySorted cell_le l → NoDup l → v ∈ l →
  index_of v l = List.length (filter (λ u, cell_lt u v) l).
Proof.
  induction 1 as [|c l Hs IH Hall]; intros Hnd Hin; [by apply elem_of_nil in Hin|].
  apply NoDup_cons in Hnd as [Hc Hnd]. simpl.
  destruct (decide (c = v)) as [->|Hne].
  - rewrite filter_cons_False by apply cell_lt_irrefl.
    by rewrite filter_below_nil.
  - apply elem_of_cons in Hin as [->|Hin]; [done|].
    rewrite filter_cons_True.
    + simpl. f_equal. by apply IH.
    + apply cell_lt_iff. split; [|done].
      rewrite Forall_forall in Hall. by apply Hall.
Qed.

Lemma index_of_sorted_unique y v :
  v ∈ y → index_of v (sorted_unique y) = rank y v.
Proof.
  intros Hin. unfold rank. rewrite <- (sorted_unique_perm y).
  apply index_of_sorted.
  - apply sorted_unique_sorted.
  - apply NoDup_sorted_unique.
  - by apply elem_of_sorted_unique.
Qed.

(** ** Ranks: range and order *)

Lemma length_filter_mono (P Q : Cell → Prop)
    `{∀ c, Decision (P c)} `{∀ c, Decision (Q c)} (l : list Cell) :
  (∀ c, c ∈ l → P c → Q c) →
  (List.length (filter P l) ≤ List.length (filter Q l))%nat.
Proof.
  induction l as [|d l IH]; intros HPQ; [done|].
  assert (List.length (filter P l) ≤ List.length (filter Q l))%nat as IH'.
  { apply IH. intros c Hc. apply HPQ. by right. }
  rewrite !filter_cons.
  destruct (decide (P d)) as [HP|HP], (decide (Q d)) as [HQ|HQ]; simpl; try lia.
  destruct HQ. apply HPQ; [by left|done].
Qed.

Lemma length_filter_strict (P Q : Cell → Prop)
    `{∀ c, Decision (P c)} `{∀ c, Decision (Q c)} (l : list Cell) (a : Cell) :
  (∀ c, c ∈ l → P c → Q c) → a ∈ l → ¬ P a → Q a →
  (List.length (filter P l) < List.length (filter Q l))%nat.
Proof.
  induction l as [|d l IH]; intros HPQ Ha HPa HQa; [by apply elem_of_nil in Ha|].
  assert (List.length (filter P l) ≤ List.length (filter Q l))%nat as Hle.
  { apply length_filter_mono. intros c Hc. apply HPQ. by right. }
  rewrite !filter_cons.
  apply elem_of_cons in Ha as [<-|Ha].
  - rewrite decide_False, decide_True by done. simpl. lia.
  - assert (List.length (filter P l) < List.length (filter Q l))%nat.
    { apply IH; try done. intros c Hc. apply HPQ. by right. }
    destruct (decide (P d)) as [HP|HP], (decide (Q d)) as [HQ|HQ]; simpl; try lia.
    destruct HQ. apply HPQ; [by left|done].
Qed.

Lemma rank_lt_n_distinct y v : v ∈ y → (rank y v < n_distinct y)%nat.
Proof.
  intros Hin. unfold rank, n_distinct.
  apply length_filter_lt with v; [by apply elem_of_unique|apply cell_lt_irrefl].
Qed.

Lemma rank_lt y a b : a ∈ y → cell_lt a b → (rank y a < rank y b)%nat.
Proof.
  intros Hin Hab. unfold rank.
  apply length_filter_strict with a.
  - intros c _ Hc. eapply cell_lt_le_trans; [done|by apply cell_lt_le].
  - by apply elem_of_unique.
  - apply cell_lt_irrefl.
  - done.
Qed.

Lemma rank_le y a b : cell_le a b → (rank y a ≤ rank y b)%nat.
Proof.
  intros Hab. unfold rank. apply length_filter_mono.
  intros c _ Hc. by eapply cell_lt_le_trans.
Qed.

(** Codes follow the sort order of the labels, strictly. *)
Lemma rank_order y a b :
  a ∈ y → (cell_lt a b ↔ (rank y a < rank y b)%nat).
Proof.
  intros Hin. split; [by apply rank_lt|].
  intros Hlt. destruct (decide (cell_lt a b)) as [|Hn]; [done|].
  apply cell_not_lt in Hn. apply (rank_le y) in Hn. lia.
Qed.

Lemma rank_inj y a b : a ∈ y → b ∈ y → rank y a = rank y b → a = b.
Proof.
  intros Ha Hb Heq.
  destruct (decide (cell_lt a b)) as [H1|H1].
  { apply (rank_lt y) in H1; [lia|done]. }
  destruct (decide (cell_lt b a)) as [H2|H2].
  { apply (rank_lt y) in H2; [lia|done]. }
  apply cell_not_lt in H1, H2. by apply cell_le_antisym.
Qed.

(** ** The store *)

(** Decide a closed proposition by evaluation. *)
Ltac by_compute := apply (bool_decide_unpack _); vm_compute; exact I.

Ltac run :=
  unfold mbind, M_bind, bind, mret, M_ret, ret, lift, raise, read, write, alloc;
  cbv beta.

Lemma lookup_col_app_r col (pre suf : list (string * Series)) :
  col ∉ pre.*1 → lookup_col col (pre ++ suf) = lookup_col col suf.
Proof.
  induction pre as [|[n s] pre IH]; simpl; [done|].
  intros Hn. apply not_elem_of_cons in Hn as [Hne Hn].
  rewrite decide_False by done. by apply IH.
Qed.

Lemma lookup_col_Some col (cs : list (string * Series)) s :
  lookup_col col cs = Some s → (col, s) ∈ cs.
Proof.
  induction cs as [|[n t] cs IH]; simpl; [done|].
  destruct (decide (n = col)) as [->|]; [intros [= ->]; by left|].
  intros. right. by apply IH.
Qed.

Lemma lookup_col_None col (cs : list (string * Series)) :
  lookup_col col cs = None ↔ col ∉ cs.*1.
Proof.
  induction cs as [|[n t] cs IH]; simpl.
  { split; [intros _; apply not_elem_of_nil|done]. }
  rewrite not_elem_of_cons. destruct (decide (n = col)) as [->|Hne].
  - split; [done|]. intros [? _]. done.
  - rewrite IH. split; [by split|by intros [_ ?]].
Qed.

Lemma lookup_col_NoDup col (cs : list (string * Series)) s :
  NoDup cs.*1 → (col, s) ∈ cs → lookup_col col cs = Some s.
Proof.
  induction cs as [|[n t] cs IH]; simpl; [by rewrite elem_of_nil|].
  rewrite NoDup_cons, elem_of_cons. intros [Hn Hnd] [[= -> ->]|Hin].
  - by rewrite decide_True.
  - rewrite decide_False; [by apply IH|].
    intros <-. apply Hn. apply list_elem_of_fmap. by exists (n, s).
Qed.

Lemma replace_absent col s (cs : list (string * Series)) :
  col ∉ cs.*1 →
  map (λ p : string * Series, if decide (p.1 = col) then (col, s) else p) cs = cs.
Proof.
  induction cs as [|[n t] cs IH]; simpl; [done|].
  intros Hn. apply not_elem_of_cons in Hn as [Hne Hn].
  rewrite decide_False by done. f_equal. by apply IH.
Qed.

(** Reassigning a column of a table with unique labels touches that column
    only. *)
Lemma loc_set_middle idx pre n s s' suf :
  NoDup (pre ++ (n, s) :: suf).*1 →
  loc_set (mkFrame idx (pre ++ (n, s) :: suf)) n s'
  = mkFrame idx (pre ++ (n, s') :: suf).
Proof.
  rewrite fmap_app, fmap_cons. simpl. intros Hnd.
  apply NoDup_app in Hnd as (_ & Hpre & Hsuf).
  apply NoDup_cons in Hsuf as [Hsuf _].
  unfold loc_set, names. simpl.
  rewrite decide_True by (rewrite fmap_app, fmap_cons; set_solver).
  f_equal. rewrite map_app. simpl. rewrite decide_True by done. f_equal.
  - apply replace_absent. intros Hin. apply (Hpre n); [done|by left].
  - f_equal. by apply replace_absent.
Qed.

Lemma assign_columns_names f cs : (assign_columns f cs).2.*1 = cs.*1.
Proof.
  induction cs as [|[n s] cs IH]; simpl; [done|].
  destruct (f s); simpl; [|done].
  destruct (assign_columns f cs); simpl in *. by f_equal.
Qed.

Lemma bind_run {A B} (m : M A) (k : A → M B) σ :
  (m ≫= k) σ
  = match m σ with
    | (Ok a, σ') => k a σ'
    | (Raise e, σ') => (Raise e, σ')
    end.
Proof. reflexivity. Qed.

Lemma assign_column_run f x col σ X s :
  σ !! x = Some X → lookup_col col (columns X) = Some s →
  assign_column f x col σ
  = match f s with
    | Ok s' => (Ok tt, <[x := loc_set X col s']> σ)
    | Raise e => (Raise e, σ)
    end.
Proof.
  intros Hx Hs. unfold assign_column. run. rewrite Hx. unfold loc_get. rewrite Hs.
  by destruct (f s).
Qed.

(** A loop over the labels of the table behind [x] that reassigns each
    column through [f] leaves the columns that [assign_columns] computes. *)
Lemma for_each_assign f x idx suf : ∀ pre σ,
  NoDup (pre ++ suf).*1 →
  σ !! x = Some (mkFrame idx (pre ++ suf)) →
  for_each suf.*1 (assign_column f x) σ
  = ((assign_columns f suf).1, <[x := mkFrame idx (pre ++ (assign_columns f suf).2)]> σ).
Proof.
  induction suf as [|[n s] suf IH]; intros pre σ Hnd Hx.
  - cbn [fmap list_fmap for_each assign_columns fst snd]. run.
    f_equal. symmetry. by apply list_insert_id.
  - assert (x < List.length σ)%nat as Hlt by (by eapply lookup_lt_Some).
    assert (n ∉ pre.*1) as Hpre.
    { rewrite fmap_app in Hnd. apply NoDup_app in Hnd as (_ & Hpre & _).
      intros Hin. apply (Hpre n); [done|]. rewrite fmap_cons. by left. }
    rewrite fmap_cons. cbn [for_each assign_columns fst].
    rewrite bind_run, (assign_column_run f x n σ _ s Hx); last first.
    { cbn [columns]. rewrite lookup_col_app_r by done.
      cbn [lookup_col]. by rewrite decide_True. }
    destruct (f s) as [s'|e].
    + rewrite loc_set_middle by done.
      rewrite (IH (pre ++ [(n, s')])); rewrite <- ?app_assoc; cbn [app].
      * destruct (assign_columns f suf) as [r cs'']. cbn [fst snd].
        by rewrite list_insert_insert_eq.
      * revert Hnd. by rewrite !fmap_app, !fmap_cons.
      * by rewrite list_lookup_insert_eq.
    + cbn [fst snd]. f_equal. symmetry. by apply list_insert_id.
Qed.

Lemma loop_transform f x σ X :
  σ !! x = Some X → NoDup (names X) →
  (X ← read x; for_each (names X) (assign_column f x);; mret x) σ
  = (outcome x (assign_columns f (columns X)).1,
     <[x := mkFrame (index X) (assign_columns f (columns X)).2]> σ).
Proof.
  intros Hx Hnd. rewrite bind_run. unfold read. rewrite Hx.
  destruct X as [idx cs]. unfold names in *. cbn [columns index] in *.
  rewrite bind_run, (for_each_assign f x idx cs [] σ) by done. cbn [app].
  by destruct (assign_columns f cs) as [[[]|e] cs'].
Qed.

Lemma for_each_ext {A} (f g : A → M unit) l σ :
  (∀ a τ, f a τ = g a τ) → for_each l f σ = for_each l g σ.
Proof.
  intros Hfg. revert σ. induction l as [|a l IH]; intros σ; [done|].
  cbn [for_each]. rewrite !bind_run, Hfg.
  destruct (g a σ) as [[[]|e] σ']; [apply IH|done].
Qed.

Lemma assign_columns_Ok f g cs :
  Forall (λ p : string * Series, f p.2 = Ok (g p.2)) cs →
  assign_columns f cs = (Ok tt, (λ p, (p.1, g p.2)) <$> cs).
Proof.
  induction 1 as [|[n s] cs Hf _ IH]; [done|].
  cbn [assign_columns]. cbn [snd] in Hf. by rewrite Hf, IH.
Qed.

Lemma assign_columns_Raise f e cs :
  Forall (λ p : string * Series, f p.2 = Raise e ∨ ∃ s', f p.2 = Ok s') cs →
  Exists (λ p : string * Series, f p.2 = Raise e) cs →
  (assign_columns f cs).1 = Raise e.
Proof.
  induction 1 as [|[n s] cs Hf Hall IH]; intros Hex; [by inversion Hex|].
  cbn [assign_columns]. cbn [snd] in Hf.
  destruct Hf as [Hf|[s' Hf]]; rewrite Hf; [done|].
  destruct (assign_columns f cs) as [r cs'] eqn:E. cbn [fst] in *.
  apply IH. inversion Hex as [? ? Hhd|]; [|done].
  cbn [snd] in Hhd. congruence.
Qed.

(** ** The loop bodies are column assignments *)

Lemma fill_missing_none x col σ :
  fill_missing "none" x col σ = assign_column fill_unknown x col σ.
Proof.
  unfold fill_missing, assign_column, fill_unknown. rewrite decide_True by done.
  run. destruct (σ !! x) as [X|]; [|done].
  destruct (loc_get X col) as [s|]; [|done].
  by destruct (cat_add_categories s (Str "Unknown")).
Qed.

Lemma fill_missing_most_frequent x col σ :
  fill_missing "most_frequent" x col σ = assign_column fill_most_frequent x col σ.
Proof.
  unfold fill_missing, assign_column, fill_most_frequent.
  rewrite decide_False, decide_True by done.
  run. destruct (σ !! x) as [X|]; [|done].
  destruct (loc_get X col) as [s|]; [|done].
  by destruct (index0 (value_counts s)).
Qed.

Lemma fill_missing_other strategy x col σ :
  strategy ≠ "none" → strategy ≠ "most_frequent" →
  fill_missing strategy x col σ
  = (Raise (Exception_ "Unknown strategy to fill na categoricals"), σ).
Proof. intros. unfold fill_missing. by rewrite !decide_False. Qed.

Lemma encode_column_assign {on_nan} x col σ :
  encode_column on_nan x col σ = assign_column (encoded on_nan) x col σ.
Proof.
  unfold encode_column, assign_column, encoded.
  run. destruct (σ !! x) as [X|]; [|done].
  destruct (loc_get X col) as [s|]; [|done].
  by destruct (LabelEncoder_fit_transform on_nan (values s)).
Qed.

Lemma transform_loop (body : ref → string → M unit) f x σ X :
  (∀ col τ, body x col τ = assign_column f x col τ) →
  σ !! x = Some X → NoDup (names X) →
  (X ← read x; for_each (names X) (body x);; mret x) σ
  = (outcome x (assign_columns f (columns X)).1,
     <[x := mkFrame (index X) (assign_columns f (columns X)).2]> σ).
Proof.
  intros Hbody Hx Hnd. rewrite <- (loop_transform f x σ X Hx Hnd).
  rewrite !bind_run. unfold read. rewrite Hx. rewrite !bind_run.
  by rewrite (for_each_ext _ _ _ _ Hbody).
Qed.

Lemma MissingCategoricals_none_run x σ X :
  σ !! x = Some X → NoDup (names X) →
  MissingCategoricalsTransformer_transform "none" x σ
  = (outcome x (assign_columns fill_unknown (columns X)).1,
     <[x := mkFrame (index X) (assign_columns fill_unknown (columns X)).2]> σ).
Proof. apply (transform_loop (fill_missing "none")), fill_missing_none. Qed.

Lemma MissingCategoricals_most_frequent_run x σ X :
  σ !! x = Some X → NoDup (names X) →
  MissingCategoricalsTransformer_transform "most_frequent" x σ
  = (outcome x (assign_columns fill_most_frequent (columns X)).1,
     <[x := mkFrame (index X) (assign_columns fill_most_frequent (columns X)).2]> σ).
Proof. apply (transform_loop (fill_missing "most_frequent")), fill_missing_most_frequent. Qed.

Lemma PipelineAwareLabelEncoder_run on_nan x σ X :
  σ !! x = Some X → NoDup (names X) →
  PipelineAwareLabelEncoder_transform on_nan x σ
  = (outcome x (assign_columns (encoded on_nan) (columns X)).1,
     <[x := mkFrame (index X) (assign_columns (encoded on_nan) (columns X)).2]> σ).
Proof. apply (transform_loop (encode_column on_nan)), @encode_column_assign. Qed.

(** ** PipelineAwareLabelEncoder *)

(** On a column of labels, scikit-learn's encoder computes the codes of the
    specification: sorting the distinct labels and looking each label up
    numbers it by the count of distinct labels below it. *)
Lemma LabelEncoder_labels on_nan y :
  Forall (λ c, is_str c = true) y →
  LabelEncoder_fit_transform on_nan y = Ok (label_codes y).
Proof.
  intros Hy. unfold LabelEncoder_fit_transform.
  assert (existsb is_nan y = false) as ->.
  { apply not_true_iff_false. intros (c & Hin & Hc)%existsb_exists.
    rewrite Forall_forall in Hy. apply list_elem_of_In, Hy in Hin. by destruct c. }
  assert (sortable y = true) as ->.
  { unfold sortable. apply orb_true_iff. right. apply forallb_forall.
    intros c Hin. rewrite Forall_forall in Hy. by apply Hy, list_elem_of_In. }
  f_equal. unfold label_codes. apply list_fmap_ext.
  intros i v Hv. f_equal. apply index_of_sorted_unique.
  by eapply list_elem_of_lookup_2.
Qed.

Lemma encoded_labels on_nan s :
  Forall (λ c, is_str c = true) (values s) →
  encoded on_nan s = Ok (mkSeries int64 [] (Num <$> label_codes (values s))).
Proof. intros Hs. unfold encoded. by rewrite LabelEncoder_labels. Qed.

(** ** ColumnSelector *)

Lemma ColumnSelector_run cols x σ X :
  σ !! x = Some X →
  ColumnSelector_transform cols x σ
  = match getitem_list X cols with
    | Ok Y => (Ok (List.length σ), σ ++ [Y])
    | Raise _ =>
        (Raise (KeyError_columns (list_to_set cols ∖ list_to_set (names X))), σ)
    end.
Proof.
  intros Hx. unfold ColumnSelector_transform. rewrite bind_run. unfold read.
  rewrite Hx. unfold getitem_list. by case_decide.
Qed.

Lemma filter_label_absent (cs : list (string * Series)) c :
  c ∉ cs.*1 → filter (λ p : string * Series, p.1 = c) cs = [].
Proof.
  induction cs as [|[n t] cs IH]; [done|].
  rewrite fmap_cons, not_elem_of_cons. cbn [fst]. intros [Hne Hc].
  rewrite filter_cons_False; [by apply IH|]. cbn [fst]. congruence.
Qed.

Lemma filter_label_NoDup (cs : list (string * Series)) c :
  NoDup cs.*1 → c ∈ cs.*1 →
  ∃ s, filter (λ p : string * Series, p.1 = c) cs = [(c, s)] ∧ (c, s) ∈ cs.
Proof.
  induction cs as [|[n t] cs IH]; [by rewrite elem_of_nil|].
  rewrite fmap_cons, NoDup_cons, elem_of_cons. cbn [fst].
  intros [Hn Hnd] Hc. rewrite filter_cons. cbn [fst].
  destruct (decide (n = c)) as [->|Hne].
  - exists t. split; [|by left]. by rewrite filter_label_absent.
  - destruct Hc as [->|Hc]; [done|].
    destruct (IH Hnd Hc) as (s & Hf & Hin). exists s. split; [done|by right].
Qed.

(** With unique labels, [X[cols]] has exactly the requested labels, in the
    requested order, each with the column of [X]. *)
Lemma getitem_columns (cs : list (string * Series)) cols :
  NoDup cs.*1 → Forall (λ c, c ∈ cs.*1) cols →
  let out := flat_map (λ c, filter (λ p : string * Series, p.1 = c) cs) cols in
  out.*1 = cols ∧ Forall (λ p, p ∈ cs) out.
Proof.
  intros Hnd. induction 1 as [|c cols Hc _ IH]; [done|].
  cbn [flat_map]. destruct (filter_label_NoDup cs c Hnd Hc) as (s & -> & Hin).
  destruct IH as [IH1 IH2]. cbn. split; [by f_equal|by constructor].
Qed.

(** C8. When the table has every requested column (and unique column
    names), ColumnSelector returns a new table with exactly the requested
    columns in exactly the requested order, each being the input's column
    of that name, over the same rows. *)
Theorem ColumnSelector_projection cols (σ : Store) (x : ref) (X : DataFrame) :
  σ !! x = Some X →
  NoDup (names X) →
  Forall (λ c, c ∈ names X) cols →
  ∃ Y, ColumnSelector_transform cols x σ = (Ok (List.length σ), σ ++ [Y])
       ∧ names Y = cols
       ∧ Forall (λ p, p ∈ columns X) (columns Y)
       ∧ index Y = index X.
Proof.
  intros Hx Hnd Hall. rewrite (ColumnSelector_run cols x σ X Hx).
  unfold getitem_list. rewrite decide_True by done.
  eexists. split; [done|].
  destruct (getitem_columns (columns X) cols Hnd Hall) as [H1 H2].
  by repeat split.
Qed.

(** C5. When at least one requested column is absent, ColumnSelector
    raises the KeyError that carries a column list, the list holds every
    requested column that the table lacks and nothing else, and no table
    is created or changed. *)
Theorem ColumnSelector_missing cols (σ : Store) (x : ref) (X : DataFrame) :
  σ !! x = Some X →
  (∃ c, c ∈ cols ∧ c ∉ names X) →
  ∃ missing : gset string,
    ColumnSelector_transform cols x σ = (Raise (KeyError_columns missing), σ)
    ∧ missing = list_to_set cols ∖ list_to_set (names X)
    ∧ missing ≠ ∅
    ∧ ∀ c, c ∈ missing ↔ c ∈ cols ∧ c ∉ names X.
Proof.
  intros Hx (c & Hc & Hn). rewrite (ColumnSelector_run cols x σ X Hx).
  unfold getitem_list. rewrite decide_False; last first.
  { rewrite Forall_forall. intros Hall. by apply Hn, Hall. }
  eexists. split; [done|]. split; [done|].
  assert (∀ d, d ∈ (list_to_set cols ∖ list_to_set (names X) : gset string)
               ↔ d ∈ cols ∧ d ∉ names X) as Hmem.
  { intros d. by rewrite elem_of_difference, !elem_of_list_to_set. }
  split; [|done].
  intros Hempty. specialize (Hmem c). rewrite Hempty in Hmem.
  apply (not_elem_of_empty (C := gset string) c), Hmem. done.
Qed.

(** ** TypeSelector *)

Lemma TypeSelector_run dtypes x σ X :
  σ !! x = Some X →
  TypeSelector_transform dtypes x σ
  = match select_dtypes X dtypes with
    | Ok Y => (Ok (List.length σ), σ ++ [Y])
    | Raise e => (Raise e, σ)
    end.
Proof.
  intros Hx. unfold TypeSelector_transform. rewrite bind_run. unfold read.
  rewrite Hx. run. by destruct (select_dtypes X dtypes).
Qed.

(** C9, as the code has it.  For a non-empty list of requested dtypes,
    TypeSelector never raises: it returns a new table over the same rows
    whose columns are the input's columns of a requested dtype, in their
    original relative order; when no column has a requested dtype that
    table has no column and the row count of the input. *)
Theorem TypeSelector_selection dtypes (σ : Store) (x : ref) (X : DataFrame) :
  σ !! x = Some X →
  dtypes ≠ [] →
  ∃ Y, TypeSelector_transform dtypes x σ = (Ok (List.length σ), σ ++ [Y])
       ∧ index Y = index X
       ∧ columns Y = filter (λ p, dtype p.2 ∈ dtypes) (columns X)
       ∧ columns Y `sublist_of` columns X
       ∧ (∀ p, p ∈ columns Y ↔ p ∈ columns X ∧ dtype p.2 ∈ dtypes)
       ∧ (Forall (λ p, dtype p.2 ∉ dtypes) (columns X) → columns Y = []).
Proof.
  intros Hx Hne. rewrite (TypeSelector_run dtypes x σ X Hx).
  destruct dtypes as [|d ds]; [done|]. cbn [select_dtypes].
  eexists. split; [done|]. cbn [index columns].
  split; [done|]. split; [done|]. split; [apply sublist_filter|].
  split.
  - intros p. rewrite list_elem_of_filter. tauto.
  - intros Hall. induction Hall as [|p cs Hp _ IH]; [done|].
    by rewrite filter_cons_False.
Qed.

(** ** MissingCategoricalsTransformer *)

Lemma fill_lookup v (l : list Cell) i c :
  l !! i = Some c → (fill v <$> l) !! i = Some (if is_nan c then v else c).
Proof. intros Hc. by rewrite list_lookup_fmap, Hc. Qed.

Lemma fill_notna v (l : list Cell) : v ≠ NaN → NaN ∉ fill v <$> l.
Proof.
  intros Hv (c & Hc & _)%list_elem_of_fmap. unfold fill in Hc.
  destruct c; simpl in Hc; congruence.
Qed.

Lemma fill_unknown_fresh s :
  dtype s = category → Str "Unknown" ∉ categories s →
  fill_unknown s
  = Ok (mkSeries category (categories s ++ [Str "Unknown"])
          (fill (Str "Unknown") <$> values s)).
Proof.
  intros Hd Hu. unfold fill_unknown, cat_add_categories. rewrite Hd.
  rewrite decide_False by done. cbn [and_then]. unfold fillna. cbn [dtype categories values].
  rewrite decide_True; [done|]. apply elem_of_app. right. by left.
Qed.

Lemma fill_unknown_present s :
  dtype s = category → Str "Unknown" ∈ categories s →
  fill_unknown s = Raise (ValueError "new categories must not include old categories").
Proof.
  intros Hd Hu. unfold fill_unknown, cat_add_categories. rewrite Hd.
  by rewrite decide_True.
Qed.

(** What the fill-constant strategy does where it succeeds: on categorical columns whose
    vocabulary lacks "Unknown", the label is appended to the vocabulary,
    every missing cell becomes "Unknown", the present cells stay, and no
    cell is missing afterwards. *)
Lemma MissingCategoricals_none_fills (σ : Store) (x : ref) (X : DataFrame) :
  σ !! x = Some X →
  NoDup (names X) →
  Forall (λ p : string * Series,
            dtype p.2 = category ∧ Str "Unknown" ∉ categories p.2) (columns X) →
  MissingCategoricalsTransformer_transform "none" x σ
  = (Ok x,
     <[x := mkFrame (index X)
              ((λ p, (p.1, mkSeries category (categories p.2 ++ [Str "Unknown"])
                             (fill (Str "Unknown") <$> values p.2)))
                 <$> columns X)]> σ).
Proof.
  intros Hx Hnd Hall. rewrite (MissingCategoricals_none_run x σ X Hx Hnd).
  rewrite (assign_columns_Ok _
             (λ s, mkSeries category (categories s ++ [Str "Unknown"])
                     (fill (Str "Unknown") <$> values s))); [done|].
  eapply Forall_impl; [exact Hall|]. intros p [Hd Hu]. by apply fill_unknown_fresh.
Qed.

(** X15. On a table with at least one column, a strategy other than the two
    known ones raises, before any column is assigned. *)
Lemma MissingCategoricals_unknown_strategy strategy (σ : Store) (x : ref) (X : DataFrame) :
  σ !! x = Some X →
  columns X ≠ [] →
  strategy ≠ "none" → strategy ≠ "most_frequent" →
  MissingCategoricalsTransformer_transform strategy x σ
  = (Raise (Exception_ "Unknown strategy to fill na categoricals"), σ).
Proof.
  intros Hx Hcols H1 H2. unfold MissingCategoricalsTransformer_transform.
  rewrite bind_run. unfold read. rewrite Hx. unfold names.
  destruct (columns X) as [|[n s] cs]; [done|].
  rewrite fmap_cons. cbn [for_each]. rewrite !bind_run.
  by rewrite fill_missing_other.
Qed.

(** On a table without columns the loop body never runs, whatever the
    strategy. *)
Lemma MissingCategoricals_no_columns strategy (σ : Store) (x : ref) idx :
  σ !! x = Some (mkFrame idx []) →
  MissingCategoricalsTransformer_transform strategy x σ = (Ok x, σ).
Proof.
  intros Hx. unfold MissingCategoricalsTransformer_transform.
  rewrite bind_run. unfold read. by rewrite Hx.
Qed.

Lemma insert_desc_perm p l : insert_desc p l ≡ₚ p :: l.
Proof.
  induction l as [|q l IH]; [done|]. cbn [insert_desc].
  case_decide; [|done]. rewrite IH. apply Permutation_swap.
Qed.

Lemma sort_desc_perm l : sort_desc l ≡ₚ l.
Proof.
  induction l as [|p l IH]; [done|].
  unfold sort_desc in *. cbn [foldr]. by rewrite insert_desc_perm, IH.
Qed.

Lemma value_counts_category s :
  dtype s = category → (value_counts s).*1 ≡ₚ categories s.
Proof.
  intros Hd. unfold value_counts. rewrite Hd, sort_desc_perm.
  rewrite <- list_fmap_compose. by rewrite list_fmap_id.
Qed.

Lemma most_frequent_category s :
  dtype s = category → categories s ≠ [] → most_frequent s ∈ categories s
  ∧ index0 (value_counts s) = Ok (most_frequent s).
Proof.
  intros Hd Hne. pose proof (value_counts_category s Hd) as Hp.
  unfold most_frequent. destruct (value_counts s) as [|[c k] l].
  - apply Permutation_nil_l in Hp. congruence.
  - split; [|done]. rewrite <- Hp. by left.
Qed.

Lemma fill_most_frequent_empty s :
  dtype s = category → categories s = [] → fill_most_frequent s = Raise IndexError.
Proof.
  intros Hd He. pose proof (value_counts_category s Hd) as Hp.
  rewrite He in Hp. apply Permutation_nil_r in Hp.
  apply fmap_nil_inv in Hp. unfold fill_most_frequent. by rewrite Hp.
Qed.

Lemma fill_most_frequent_category s :
  dtype s = category → categories s ≠ [] →
  fill_most_frequent s
  = Ok (mkSeries category (categories s) (fill (most_frequent s) <$> values s)).
Proof.
  intros Hd Hne. destruct (most_frequent_category s Hd Hne) as [Hin Hi].
  unfold fill_most_frequent. rewrite Hi. cbn [and_then]. unfold fillna.
  rewrite Hd. by rewrite decide_True.
Qed.

(** C10, as the code has it.  On a table of categorical columns (unique
    column names, vocabularies without NaN) the most-frequent strategy
    raises IndexError when some column has an empty vocabulary, the only
    case in which the sequence of counts is empty.  When every vocabulary is
    non-empty the transform succeeds: each column keeps its vocabulary, its
    missing cells take the first entry of its counts, which is one of its
    categories, and no cell is missing afterwards; this includes a column
    whose cells are all missing. *)
Theorem MissingCategoricals_most_frequent_spec (σ : Store) (x : ref) (X : DataFrame) :
  σ !! x = Some X →
  NoDup (names X) →
  Forall (λ p : string * Series,
            dtype p.2 = category ∧ NaN ∉ categories p.2) (columns X) →
  (Exists (λ p : string * Series, categories p.2 = []) (columns X) →
   (MissingCategoricalsTransformer_transform "most_frequent" x σ).1 = Raise IndexError)
  ∧ (Forall (λ p : string * Series, categories p.2 ≠ []) (columns X) →
     ∃ X',
       MissingCategoricalsTransformer_transform "most_frequent" x σ
       = (Ok x, <[x := X']> σ)
       ∧ index X' = index X
       ∧ columns X'
         = (λ p, (p.1, mkSeries category (categories p.2)
                         (fill (most_frequent p.2) <$> values p.2)))
             <$> columns X
       ∧ Forall (λ p : string * Series, most_frequent p.2 ∈ categories p.2) (columns X)
       ∧ Forall (λ p' : string * Series, NaN ∉ values p'.2) (columns X')).
Proof.
  intros Hx Hnd Hall.
  rewrite (MissingCategoricals_most_frequent_run x σ X Hx Hnd). split.
  - intros Hex. cbn [fst].
    rewrite (assign_columns_Raise fill_most_frequent IndexError); [done|..].
    + eapply Forall_impl; [exact Hall|]. intros p [Hd _].
      destruct (categories p.2) as [|c cs] eqn:E.
      * left. by apply fill_most_frequent_empty.
      * right. eexists. apply fill_most_frequent_category; [done|]. by rewrite E.
    + apply Exists_exists in Hex as (p & Hp & He). apply Exists_exists.
      exists p. split; [done|]. rewrite Forall_forall in Hall.
      apply fill_most_frequent_empty; [by apply Hall|done].
  - intros Hne.
    rewrite (assign_columns_Ok _
               (λ s, mkSeries category (categories s)
                       (fill (most_frequent s) <$> values s))); last first.
    { rewrite Forall_forall in Hall, Hne. apply Forall_forall. intros p Hp.
      apply fill_most_frequent_category; [by apply Hall|by apply Hne]. }
    eexists. split; [done|]. cbn [index columns].
    split; [done|]. split; [done|].
    assert (Forall (λ p : string * Series, most_frequent p.2 ∈ categories p.2)
              (columns X)) as Hmf.
    { rewrite Forall_forall in Hall, Hne. apply Forall_forall. intros p Hp.
      apply most_frequent_category; [by apply Hall|by apply Hne]. }
    split; [done|].
    apply Forall_fmap. rewrite Forall_forall in Hall, Hmf. apply Forall_forall.
    intros p Hp. cbn. apply fill_notna. intros Heq.
    destruct (Hall p Hp) as [_ Hnan]. apply Hnan. rewrite <- Heq. by apply Hmf.
Qed.

(** ** CustomTypeTransformer *)

Lemma astype_category_dtype s : dtype (astype_category s) = category.
Proof. unfold astype_category. by destruct (dtype s) eqn:E. Qed.

Lemma astype_category_values s : values (astype_category s) = values s.
Proof. unfold astype_category. by destruct (dtype s) eqn:E. Qed.

Lemma astype_category_id s : dtype s = category → astype_category s = s.
Proof. intros E. unfold astype_category. by rewrite E. Qed.

(** A column of another dtype whose cells are all missing is coerced to a
    categorical column with an empty vocabulary. *)
Lemma astype_category_all_missing s :
  dtype s ≠ category → Forall (λ c, c = NaN) (values s) →
  categories (astype_category s) = [].
Proof.
  intros Hd Hall. unfold astype_category.
  assert (filter (λ c, c ≠ NaN) (values s) = []) as ->.
  { induction Hall as [|c l Hc _ IH]; [done|]. by rewrite filter_cons_False by tauto. }
  by destruct (dtype s).
Qed.

Lemma lookup_col_names col (cs : list (string * Series)) :
  col ∈ cs.*1 ↔ ∃ s, lookup_col col cs = Some s.
Proof.
  destruct (lookup_col col cs) as [s|] eqn:E.
  - split; [by exists s|]. intros _. apply lookup_col_Some in E.
    apply list_elem_of_fmap. by exists (col, s).
  - apply lookup_col_None in E. split; [done|]. by intros [s ?].
Qed.

Lemma loc_set_names X c s : c ∈ names X → names (loc_set X c s) = names X.
Proof.
  intros Hc. unfold loc_set. rewrite decide_True by done.
  unfold names. cbn [columns]. clear Hc.
  induction (columns X) as [|[n t] cs IH]; [done|].
  cbn [map]. rewrite !fmap_cons. rewrite IH. f_equal.
  cbn [fst]. by case_decide.
Qed.

Lemma loc_set_index X c s : index (loc_set X c s) = index X.
Proof. unfold loc_set. by case_decide. Qed.

Lemma loc_set_lookup X c s d :
  c ∈ names X →
  lookup_col d (columns (loc_set X c s))
  = if decide (d = c) then Some s else lookup_col d (columns X).
Proof.
  intros Hc. unfold loc_set. rewrite decide_True by done. cbn [columns].
  unfold names in Hc. induction (columns X) as [|[n t] cs IH].
  { by apply elem_of_nil in Hc. }
  cbn [map lookup_col fst]. destruct (decide (n = c)) as [->|Hnc].
  - cbn [lookup_col]. destruct (decide (c = d)) as [->|Hcd].
    + by rewrite decide_True.
    + rewrite decide_False by done.
      destruct (decide (c ∈ cs.*1)) as [Hin|Hout]; [by rewrite IH, decide_False|].
      by rewrite replace_absent.
  - cbn [lookup_col]. rewrite fmap_cons, elem_of_cons in Hc.
    destruct Hc as [->|Hc]; [done|].
    destruct (decide (n = d)) as [->|Hnd]; [by rewrite decide_False|].
    by apply IH.
Qed.

Lemma loc_set_same X c s :
  NoDup (names X) → lookup_col c (columns X) = Some s → loc_set X c s = X.
Proof.
  intros Hnd Hs. destruct X as [idx cs]. unfold names in Hnd. cbn [columns] in *.
  apply lookup_col_Some, list_elem_of_split in Hs as (pre & suf & ->).
  by apply loc_set_middle.
Qed.

Lemma coerce_table_Ok X c X' :
  coerce_table X c = Ok X' →
  ∃ s, lookup_col c (columns X) = Some s ∧ X' = loc_set X c (astype_category s).
Proof.
  unfold coerce_table, loc_get. destruct (lookup_col c (columns X)) as [s|]; [|done].
  intros [= <-]. by exists s.
Qed.

Lemma coerce_table_names X c X' : coerce_table X c = Ok X' → names X' = names X.
Proof.
  intros (s & Hs & ->)%coerce_table_Ok. apply loc_set_names.
  apply lookup_col_names. by exists s.
Qed.

Lemma coerce_table_coerced X c X' : coerce_table X c = Ok X' → coerced X' c.
Proof.
  intros (s & Hs & ->)%coerce_table_Ok. exists (astype_category s). split.
  - rewrite loc_set_lookup, decide_True; [done..|].
    apply lookup_col_names. by exists s.
  - apply astype_category_dtype.
Qed.

Lemma coerce_table_keeps X d X' c :
  coerce_table X d = Ok X' → coerced X c → coerced X' c.
Proof.
  intros Hd (t & Ht & Hcat). destruct (decide (c = d)) as [->|Hne].
  { by eapply coerce_table_coerced. }
  apply coerce_table_Ok in Hd as (s & Hs & ->). exists t. split; [|done].
  rewrite loc_set_lookup, decide_False; [done..|].
  apply lookup_col_names. by exists s.
Qed.

Lemma coerce_table_id X c : NoDup (names X) → coerced X c → coerce_table X c = Ok X.
Proof.
  intros Hnd (s & Hs & Hcat). unfold coerce_table, loc_get. rewrite Hs.
  cbn [and_then]. rewrite astype_category_id by done. f_equal.
  by apply loc_set_same.
Qed.

Lemma coerce_all_names cols : ∀ X, names (coerce_all cols X).2 = names X.
Proof.
  induction cols as [|c cs IH]; intros X; [done|].
  cbn [coerce_all]. destruct (coerce_table X c) as [X'|e] eqn:E; [|done].
  rewrite IH. by eapply coerce_table_names.
Qed.

Lemma coerce_all_keeps cols c : ∀ X, coerced X c → coerced (coerce_all cols X).2 c.
Proof.
  induction cols as [|d cs IH]; intros X Hc; [done|].
  cbn [coerce_all]. destruct (coerce_table X d) as [X'|e] eqn:E; [|done].
  apply IH. by eapply coerce_table_keeps.
Qed.

(** Coercing a table that was coerced already changes nothing and ends the
    same way: categorical columns are returned as they are, and a label
    that was absent is absent still. *)
Lemma coerce_all_idem cols : ∀ X,
  NoDup (names X) →
  coerce_all cols (coerce_all cols X).2 = coerce_all cols X.
Proof.
  induction cols as [|c cs IH]; intros X Hnd; [done|].
  cbn [coerce_all]. destruct (coerce_table X c) as [X'|e] eqn:E.
  - assert (NoDup (names X')) as Hnd' by (by erewrite coerce_table_names).
    assert (coerced (coerce_all cs X').2 c) as Hc.
    { apply coerce_all_keeps. by eapply coerce_table_coerced. }
    rewrite coerce_table_id; [by apply IH| |done].
    by rewrite coerce_all_names.
  - cbn [snd coerce_all]. by rewrite E.
Qed.

Lemma coerce_run x col σ X :
  σ !! x = Some X →
  coerce x col σ
  = match coerce_table X col with
    | Ok X' => (Ok tt, <[x := X']> σ)
    | Raise e => (Raise e, σ)
    end.
Proof.
  intros Hx. unfold coerce, coerce_table. run. rewrite Hx.
  by destruct (loc_get X col).
Qed.

Lemma coerce_each_run {A} x (k : M A) cols : ∀ σ X,
  σ !! x = Some X →
  coerce_each x cols k σ
  = match (coerce_all cols X).1 with
    | Ok _ => k (<[x := (coerce_all cols X).2]> σ)
    | Raise e => (Raise e, <[x := (coerce_all cols X).2]> σ)
    end.
Proof.
  induction cols as [|c cs IH]; intros σ X Hx; cbn [coerce_each coerce_all fst snd].
  - by rewrite list_insert_id.
  - rewrite bind_run, (coerce_run x c σ X Hx).
    destruct (coerce_table X c) as [X'|e].
    + assert (x < List.length σ)%nat as Hlt by (by eapply lookup_lt_Some).
      rewrite (IH _ X') by (by rewrite list_lookup_insert_eq).
      by rewrite list_insert_insert_eq.
    + cbn [fst snd]. by rewrite list_insert_id.
Qed.

Lemma CustomTypeTransformer_run x σ X :
  σ !! x = Some X →
  CustomTypeTransformer_transform x σ
  = (outcome x (coerce_all categorical_columns X).1,
     <[x := (coerce_all categorical_columns X).2]> σ).
Proof.
  intros Hx.
  change (CustomTypeTransformer_transform x)
    with (coerce_each x categorical_columns (mret x : M ref)).
  rewrite (coerce_each_run x _ _ σ X Hx).
  by destruct (coerce_all categorical_columns X).1 as [[]|e].
Qed.

(** ** The feature union and the pipeline *)

Lemma lookup_snoc (σ : Store) Z : (σ ++ [Z]) !! List.length σ = Some Z.
Proof. by rewrite list_lookup_middle. Qed.

Lemma insert_snoc (σ : Store) Z Z' : <[List.length σ := Z']> (σ ++ [Z]) = σ ++ [Z'].
Proof.
  replace (List.length σ) with (List.length σ + 0)%nat by lia.
  by rewrite insert_app_r.
Qed.

Lemma select_dtypes_names X d Y :
  NoDup (names X) → select_dtypes X [d] = Ok Y → NoDup (names Y).
Proof.
  intros Hnd [= <-]. unfold names in *. cbn [columns].
  eapply sublist_NoDup; [done|]. apply fmap_sublist, sublist_filter.
Qed.

Section PipelineRun.

Context {F : Type}.
Variable scaler : DataFrame → result (Matrix F).
Variable onehot : DataFrame → result (Matrix F).
Variable on_nan : list Cell → result (list Z).

Lemma numeric_features_run y (σ : Store) Y :
  σ !! y = Some Y →
  ∃ N, numeric_features scaler y σ = (numeric_value scaler Y, σ ++ [N]).
Proof.
  intros Hy. unfold numeric_features, numeric_selection, numeric_value.
  rewrite bind_run, (TypeSelector_run _ y σ Y Hy). cbn [select_dtypes and_then].
  eexists. rewrite bind_run. unfold read. rewrite lookup_snoc. done.
Qed.

Lemma categorical_features_run y (σ : Store) Y :
  σ !! y = Some Y → NoDup (names Y) →
  ∃ C, categorical_features onehot on_nan y σ
       = (categorical_value onehot on_nan Y, σ ++ [C]).
Proof.
  intros Hy Hnd. unfold categorical_features, categorical_value.
  rewrite bind_run, (TypeSelector_run _ y σ Y Hy).
  destruct (select_dtypes Y [category]) as [C|e] eqn:HC; [|done].
  assert (NoDup (names C)) as HndC by (by eapply select_dtypes_names).
  cbn [and_then]. rewrite bind_run.
  rewrite (MissingCategoricals_none_run _ _ C (lookup_snoc σ C) HndC).
  rewrite insert_snoc.
  destruct (assign_columns fill_unknown (columns C)) as [r1 cs1] eqn:E1.
  cbn [fst snd]. destruct r1 as [[]|e]; cbn [outcome and_then]; [|by eexists].
  set (C1 := mkFrame (index C) cs1).
  assert (NoDup (names C1)) as HndC1.
  { unfold names, C1. cbn [columns].
    pose proof (assign_columns_names fill_unknown (columns C)) as Hn.
    rewrite E1 in Hn. cbn [snd] in Hn. by rewrite Hn. }
  rewrite bind_run.
  rewrite (PipelineAwareLabelEncoder_run on_nan _ _ C1 (lookup_snoc σ C1) HndC1).
  rewrite insert_snoc. cbn [columns index C1].
  destruct (assign_columns (encoded on_nan) cs1) as [r2 cs2] eqn:E2.
  cbn [fst snd]. destruct r2 as [[]|e]; cbn [outcome and_then]; [|by eexists].
  rewrite bind_run. unfold read. rewrite lookup_snoc. by eexists.
Qed.

Lemma FeatureUnion_run y (σ : Store) Y :
  σ !! y = Some Y → NoDup (names Y) →
  ∃ τ, FeatureUnion_transform scaler onehot on_nan y σ
       = (union_value scaler onehot on_nan Y, σ ++ τ).
Proof.
  intros Hy Hnd. unfold FeatureUnion_transform, union_value.
  rewrite bind_run. destruct (numeric_features_run y σ Y Hy) as [N ->].
  destruct (numeric_value scaler Y) as [a|e]; cbn [and_then]; [|by eexists].
  assert ((σ ++ [N]) !! y = Some Y) as Hy'.
  { rewrite lookup_app_l; [done|]. by eapply lookup_lt_Some. }
  rewrite bind_run.
  destruct (categorical_features_run y (σ ++ [N]) Y Hy' Hnd) as [C ->].
  rewrite <- app_assoc.
  destruct (categorical_value onehot on_nan Y) as [b|e]; cbn [and_then]; by eexists.
Qed.

(** The pipeline returns [pipeline_value] of the caller's table, leaves the
    caller's table coerced, and beyond that only creates tables. *)
Lemma preprocess_pipeline_run x (σ : Store) X :
  σ !! x = Some X → NoDup (names X) →
  ∃ τ, preprocess_pipeline_transform scaler onehot on_nan x σ
       = (pipeline_value scaler onehot on_nan X,
          <[x := (coerce_all categorical_columns X).2]> σ ++ τ).
Proof.
  intros Hx Hnd. unfold preprocess_pipeline_transform, pipeline_value.
  rewrite bind_run, (CustomTypeTransformer_run x σ X Hx).
  pose proof (coerce_all_names categorical_columns X) as Hnames.
  destruct (coerce_all categorical_columns X) as [r X1]. cbn [fst snd] in *.
  destruct r as [[]|e]; cbn [outcome and_then]; [|exists []; by rewrite app_nil_r].
  assert (x < List.length σ)%nat as Hlt by (by eapply lookup_lt_Some).
  set (σ1 := <[x := X1]> σ).
  assert (σ1 !! x = Some X1) as Hx1 by (by apply list_lookup_insert_eq).
  rewrite bind_run, (ColumnSelector_run selected_columns x σ1 X1 Hx1).
  unfold selected_value, getitem_list.
  case_decide as Hall; cbn [and_then]; [|exists []; by rewrite app_nil_r].
  set (Y := mkFrame _ _).
  assert (NoDup (names Y)) as HndY.
  { rewrite <- Hnames in Hnd.
    destruct (getitem_columns (columns X1) selected_columns Hnd Hall) as [Heq _].
    unfold names, Y. cbn [columns]. rewrite Heq.
    by_compute. }
  rewrite bind_run.
  destruct (FeatureUnion_run _ (σ1 ++ [Y]) Y (lookup_snoc σ1 Y) HndY) as [τ ->].
  rewrite <- app_assoc.
  destruct (union_value scaler onehot on_nan Y) as [m|e]; cbn [and_then]; by eexists.
Qed.

End PipelineRun.

(** C4. With the estimators as fitted, two successive calls of the
    pipeline's transform on the same table object end the same way: the
    second call returns what the first returned, cell for cell (or raises
    what the first raised), although the first call left the caller's table
    coerced.  What is returned is a function of the table alone. *)
Theorem transform_twice_same {F : Type}
    (scaler onehot : DataFrame → result (Matrix F))
    (on_nan : list Cell → result (list Z))
    (σ : Store) (x : ref) (X : DataFrame) :
  σ !! x = Some X →
  NoDup (names X) →
  let first := preprocess_pipeline_transform scaler onehot on_nan x σ in
  let second := preprocess_pipeline_transform scaler onehot on_nan x first.2 in
  second.1 = first.1 ∧ first.1 = pipeline_value scaler onehot on_nan X.
Proof.
  intros Hx Hnd first second. subst first second.
  destruct (preprocess_pipeline_run scaler onehot on_nan x σ X Hx Hnd) as [τ ->].
  cbn [fst snd]. split; [|done].
  set (X1 := (coerce_all categorical_columns X).2).
  assert (x < List.length σ)%nat as Hlt by (by eapply lookup_lt_Some).
  assert ((<[x := X1]> σ ++ τ) !! x = Some X1) as Hx1.
  { rewrite lookup_app_l by (by rewrite length_insert).
    by apply list_lookup_insert_eq. }
  assert (NoDup (names X1)) as Hnd1.
  { unfold X1. by rewrite coerce_all_names. }
  destruct (preprocess_pipeline_run scaler onehot on_nan x _ X1 Hx1 Hnd1) as [τ' ->].
  cbn [fst]. unfold pipeline_value, X1.
  by rewrite coerce_all_idem.
Qed.

(** X14. What the pipeline does to the tables that existed before the call: the
    caller's table is left coerced (the imputer and the label encoder
    assign into tables that the selectors created), every other table is
    as it was. *)
Lemma preprocess_pipeline_caller_table {F : Type}
    (scaler onehot : DataFrame → result (Matrix F))
    (on_nan : list Cell → result (list Z))
    (σ : Store) (x : ref) (X : DataFrame) :
  σ !! x = Some X →
  NoDup (names X) →
  let σ' := (preprocess_pipeline_transform scaler onehot on_nan x σ).2 in
  σ' !! x = Some (coerce_all categorical_columns X).2
  ∧ ∀ y Z, y ≠ x → σ !! y = Some Z → σ' !! y = Some Z.
Proof.
  intros Hx Hnd σ'. subst σ'.
  destruct (preprocess_pipeline_run scaler onehot on_nan x σ X Hx Hnd) as [τ ->].
  cbn [snd]. assert (x < List.length σ)%nat as Hlt by (by eapply lookup_lt_Some).
  split.
  - rewrite lookup_app_l by (by rewrite length_insert).
    by apply list_lookup_insert_eq.
  - intros y Z Hne Hy.
    rewrite lookup_app_l by (rewrite length_insert; by eapply lookup_lt_Some).
    by rewrite list_lookup_insert_ne.
Qed.

(** ** The numeric branch *)

Lemma coerce_all_Ok cols : ∀ X,
  Forall (λ c, c ∈ names X) cols → (coerce_all cols X).1 = Ok tt.
Proof.
  induction cols as [|c cs IH]; intros X Hall; [done|].
  apply Forall_cons in Hall as [Hc Hall]. cbn [coerce_all].
  apply lookup_col_names in Hc as [s Hs].
  unfold coerce_table, loc_get. rewrite Hs. cbn [and_then].
  apply IH. rewrite loc_set_names; [done|]. apply lookup_col_names. by exists s.
Qed.

Lemma coerce_all_index cols : ∀ X, index (coerce_all cols X).2 = index X.
Proof.
  induction cols as [|c cs IH]; intros X; [done|].
  cbn [coerce_all]. destruct (coerce_table X c) as [X'|e] eqn:E; [|done].
  rewrite IH. apply coerce_table_Ok in E as (s & _ & ->). apply loc_set_index.
Qed.

Lemma coerce_all_other cols d : ∀ X,
  d ∉ cols →
  lookup_col d (columns (coerce_all cols X).2) = lookup_col d (columns X).
Proof.
  induction cols as [|c cs IH]; intros X Hd; [done|].
  apply not_elem_of_cons in Hd as [Hdc Hd]. cbn [coerce_all].
  destruct (coerce_table X c) as [X'|e] eqn:E; [|done].
  rewrite IH by done. apply coerce_table_Ok in E as (s & Hs & ->).
  rewrite loc_set_lookup, decide_False; [done..|].
  apply lookup_col_names. by exists s.
Qed.

Lemma coerce_all_coerced cols c : ∀ X,
  Forall (λ c, c ∈ names X) cols → c ∈ cols → coerced (coerce_all cols X).2 c.
Proof.
  induction cols as [|d cs IH]; intros X Hall Hc; [by apply elem_of_nil in Hc|].
  apply Forall_cons in Hall as [Hd Hall]. cbn [coerce_all].
  apply lookup_col_names in Hd as [s Hs].
  destruct (coerce_table X d) as [X'|e] eqn:E; last first.
  { unfold coerce_table, loc_get in E. by rewrite Hs in E. }
  assert (names X' = names X) as Hn by (by eapply coerce_table_names).
  apply elem_of_cons in Hc as [->|Hc].
  - apply coerce_all_keeps. by eapply coerce_table_coerced.
  - apply IH; [by rewrite Hn|done].
Qed.

Lemma getitem_select (X : DataFrame) cols :
  NoDup (names X) → Forall (λ c, c ∈ names X) cols →
  flat_map (λ c, filter (λ p : string * Series, p.1 = c) (columns X)) cols
  = select X cols.
Proof.
  intros Hnd. induction 1 as [|c cols Hc _ IH]; [done|].
  unfold select in *. cbn [flat_map omap list_omap].
  destruct (filter_label_NoDup (columns X) c Hnd Hc) as (s & -> & Hin).
  rewrite (lookup_col_NoDup c (columns X) s Hnd Hin). cbn. by rewrite IH.
Qed.

Lemma select_names X cols : (select X cols).*1 `sublist_of` cols.
Proof.
  unfold select. induction cols as [|c cs IH]; [done|]. cbn [omap list_omap].
  destruct (lookup_col c (columns X)) as [s|]; cbn.
  - by apply sublist_skip.
  - by apply sublist_cons.
Qed.

Lemma filter_cons_cons {A} (P : A → Prop) `{∀ a, Decision (P a)} x y (l : list A) :
  filter P (x :: y :: l) = filter P [x] ++ filter P (y :: l).
Proof. change (x :: y :: l) with ([x] ++ y :: l). apply filter_app. Qed.

Lemma filter_single_False {A} (P : A → Prop) `{∀ a, Decision (P a)} x :
  ¬ P x → filter P [x] = [].
Proof. intros. by rewrite filter_cons_False. Qed.

Lemma select_nil X : select X [] = [].
Proof. done. Qed.

Lemma select_cons X c cs s :
  lookup_col c (columns X) = Some s → select X (c :: cs) = (c, s) :: select X cs.
Proof. intros Hs. unfold select. cbn [omap list_omap]. by rewrite Hs. Qed.

(** Of the twelve selected columns, those stored as int64 are among the
    five numeric ones once the categorical ones carry another dtype. *)
Lemma numeric_selection_columns (X X1 : DataFrame) :
  (∀ c, c ∈ numeric_columns →
     ∃ s, lookup_col c (columns X1) = Some s ∧ lookup_col c (columns X) = Some s) →
  (∀ c, c ∈ categorical_columns →
     ∃ s, lookup_col c (columns X1) = Some s ∧ dtype s ≠ int64) →
  filter (λ p : string * Series, dtype p.2 ∈ [int64]) (select X1 selected_columns)
  = filter (λ p, dtype p.2 = int64) (select X numeric_columns).
Proof.
  intros Hnum Hc.
  rewrite (list_filter_iff _ (λ p : string * Series, dtype p.2 = int64))
    by (intros p; apply list_elem_of_singleton).
  destruct (Hnum "age") as (s1 & ? & ?); [by_compute|].
  destruct (Hnum "education-num") as (s2 & ? & ?); [by_compute|].
  destruct (Hnum "capital-gain") as (s3 & ? & ?); [by_compute|].
  destruct (Hnum "capital-loss") as (s4 & ? & ?); [by_compute|].
  destruct (Hnum "hours-per-week") as (s5 & ? & ?); [by_compute|].
  destruct (Hc "workclass") as (c1 & ? & ?); [by_compute|].
  destruct (Hc "marital-status") as (c2 & ? & ?); [by_compute|].
  destruct (Hc "occupation") as (c3 & ? & ?); [by_compute|].
  destruct (Hc "relationship") as (c4 & ? & ?); [by_compute|].
  destruct (Hc "race") as (c5 & ? & ?); [by_compute|].
  destruct (Hc "sex") as (c6 & ? & ?); [by_compute|].
  destruct (Hc "native-country") as (c7 & ? & ?); [by_compute|].
  unfold selected_columns, numeric_columns.
  repeat (erewrite select_cons by eassumption). rewrite !select_nil.
  rewrite !filter_cons_cons.
  rewrite (filter_single_False _ ("workclass", c1)) by done.
  rewrite (filter_single_False _ ("marital-status", c2)) by done.
  rewrite (filter_single_False _ ("occupation", c3)) by done.
  rewrite (filter_single_False _ ("relationship", c4)) by done.
  rewrite (filter_single_False _ ("race", c5)) by done.
  rewrite (filter_single_False _ ("sex", c6)) by done.
  rewrite (filter_single_False _ ("native-country", c7)) by done.
  cbn [app]. by rewrite app_nil_r.
Qed.

(** C2, as the code has it.  On a table with the columns of the Adult
    schema (and unique column names), the numeric branch hands to
    StandardScaler a new table over the same rows whose columns are those
    of age, education-num, capital-gain, capital-loss and hours-per-week
    that are stored as int64, in that order and with the cells of the
    input.  A numeric column stored with another dtype is not selected. *)
Theorem numeric_branch_selects_int64 (σ : Store) (x : ref) (X : DataFrame) :
  σ !! x = Some X →
  NoDup (names X) →
  Forall (λ c, c ∈ names X) adult_columns →
  ∃ (n : ref) (σ' : Store) (N : DataFrame),
    numeric_branch_input x σ = (Ok n, σ')
    ∧ σ' !! n = Some N
    ∧ index N = index X
    ∧ columns N = filter (λ p, dtype p.2 = int64) (select X numeric_columns)
    ∧ names N `sublist_of` numeric_columns.
Proof.
  intros Hx Hnd Hall. unfold numeric_branch_input, numeric_selection.
  rewrite bind_run, (CustomTypeTransformer_run x σ X Hx).
  assert (Forall (λ c, c ∈ names X) categorical_columns) as Hcat.
  { rewrite Forall_forall in Hall. apply Forall_forall. intros c Hc.
    apply Hall. revert c Hc. apply Forall_forall. by_compute. }
  rewrite (coerce_all_Ok _ _ Hcat). cbn [outcome].
  set (X1 := (coerce_all categorical_columns X).2).
  assert (names X1 = names X) as Hn1 by apply coerce_all_names.
  assert (x < List.length σ)%nat as Hlt by (by eapply lookup_lt_Some).
  set (σ1 := <[x := X1]> σ).
  assert (σ1 !! x = Some X1) as Hx1 by (by apply list_lookup_insert_eq).
  assert (Forall (λ c, c ∈ names X1) selected_columns) as Hsel.
  { rewrite Hn1. rewrite Forall_forall in Hall. apply Forall_forall. intros c Hc.
    apply Hall. revert c Hc. apply Forall_forall. by_compute. }
  rewrite bind_run, (ColumnSelector_run selected_columns x σ1 X1 Hx1).
  unfold getitem_list. rewrite decide_True by done.
  assert (NoDup (names X1)) as Hnd1 by (by rewrite Hn1).
  rewrite getitem_select by done.
  rewrite (TypeSelector_run _ _ _ _ (lookup_snoc σ1 _)). cbn [select_dtypes index].
  eexists _, _, _. split; [done|]. split; [apply lookup_snoc|].
  cbn [index columns]. split; [apply coerce_all_index|].
  rewrite (numeric_selection_columns X X1); last first.
  { intros c Hc. destruct (coerce_all_coerced _ c X Hcat Hc) as (s & Hs & Hd).
    exists s. split; [done|]. by rewrite Hd. }
  { intros c Hc. assert (c ∈ names X) as [s Hs]%lookup_col_names.
    { rewrite Forall_forall in Hall. apply Hall. revert c Hc.
      apply Forall_forall. by_compute. }
    exists s. split; [|done]. unfold X1. rewrite coerce_all_other; [done|].
    clear Hs. revert c Hc. apply Forall_forall. by_compute. }
  split; [done|].
  unfold names. cbn [columns]. etrans; [|apply (select_names X)].
  apply fmap_sublist, sublist_filter.
Qed.

(** ** What the assigning transformers leave alone *)

Lemma assigns_only_pure {A} x (r : result A) : assigns_only x (lift r).
Proof. intros σ X Hx. exists X. by rewrite list_insert_id. Qed.

Lemma assigns_only_bind {A B} x (m : M A) (k : A → M B) :
  assigns_only x m → (∀ a, assigns_only x (k a)) → assigns_only x (m ≫= k).
Proof.
  intros Hm Hk σ X Hx. rewrite bind_run.
  destruct (Hm σ X Hx) as (X1 & Hσ & Hn & Hi).
  destruct (m σ) as [[a|e] σ1]; cbn [snd] in Hσ; subst σ1; [|by exists X1].
  assert (x < List.length σ)%nat as Hlt by (by eapply lookup_lt_Some).
  destruct (Hk a (<[x := X1]> σ) X1) as (X2 & Hσ2 & Hn2 & Hi2).
  { by apply list_lookup_insert_eq. }
  exists X2. rewrite Hσ2, list_insert_insert_eq. by rewrite Hn2, Hi2.
Qed.

Lemma assigns_only_ext {A} x (m m' : M A) :
  (∀ σ, m σ = m' σ) → assigns_only x m' → assigns_only x m.
Proof. intros Heq Hm σ X Hx. rewrite Heq. by apply Hm. Qed.

Lemma assigns_only_assign_column f x col : assigns_only x (assign_column f x col).
Proof.
  intros σ X Hx. unfold assign_column. run. rewrite Hx. unfold loc_get.
  destruct (lookup_col col (columns X)) as [s|] eqn:Hs;
    [|exists X; by rewrite list_insert_id].
  destruct (f s) as [s'|e]; [|exists X; by rewrite list_insert_id].
  exists (loc_set X col s'). split; [done|]. split; [|apply loc_set_index].
  apply loc_set_names, lookup_col_names. by exists s.
Qed.

Lemma assigns_only_for_each {A} x (body : A → M unit) l :
  (∀ a, assigns_only x (body a)) → assigns_only x (for_each l body).
Proof.
  intros Hbody. induction l as [|a l IH]; cbn [for_each].
  - apply (assigns_only_pure x (Ok tt)).
  - apply assigns_only_bind; [apply Hbody|by intros _].
Qed.

Lemma assigns_only_fill_missing strategy x col :
  assigns_only x (fill_missing strategy x col).
Proof.
  destruct (decide (strategy = "none")) as [->|H1].
  { eapply assigns_only_ext; [apply fill_missing_none|apply assigns_only_assign_column]. }
  destruct (decide (strategy = "most_frequent")) as [->|H2].
  { eapply assigns_only_ext;
      [apply fill_missing_most_frequent|apply assigns_only_assign_column]. }
  eapply assigns_only_ext; [intros σ; by apply fill_missing_other|].
  apply (assigns_only_pure x (Raise _)).
Qed.

Lemma assigns_only_coerce x col : assigns_only x (coerce x col).
Proof.
  apply (assigns_only_ext x _ (assign_column (λ s, Ok (astype_category s)) x col));
    [|apply assigns_only_assign_column].
  intros σ. unfold coerce, assign_column. run.
  destruct (σ !! x) as [X|]; [|done]. by destruct (loc_get X col).
Qed.

Lemma assigns_only_loop x (body : ref → string → M unit) :
  (∀ col, assigns_only x (body x col)) →
  assigns_only x (X ← read x; for_each (names X) (body x);; mret x).
Proof.
  intros Hbody σ X Hx. rewrite bind_run. unfold read. rewrite Hx.
  apply (assigns_only_bind x (for_each (names X) (body x)) (λ _, mret x));
    [by apply assigns_only_for_each| |done].
  intros _. apply (assigns_only_pure x (Ok x)).
Qed.

Lemma assigns_only_CustomTypeTransformer x :
  assigns_only x (CustomTypeTransformer_transform x).
Proof.
  assert (∀ cols, assigns_only x (coerce_each x cols (mret x : M ref))) as H.
  { induction cols as [|c cs IH]; cbn [coerce_each].
    - apply (assigns_only_pure x (Ok x)).
    - apply assigns_only_bind; [apply assigns_only_coerce|by intros _]. }
  apply (H categorical_columns).
Qed.

Lemma assigns_only_MissingCategoricals strategy x :
  assigns_only x (MissingCategoricalsTransformer_transform strategy x).
Proof.
  apply (assigns_only_loop x (fill_missing strategy)).
  intros col. apply assigns_only_fill_missing.
Qed.

Lemma assigns_only_PipelineAwareLabelEncoder on_nan x :
  assigns_only x (PipelineAwareLabelEncoder_transform on_nan x).
Proof.
  apply (assigns_only_loop x (encode_column on_nan)).
  intros col. eapply assigns_only_ext; [apply @encode_column_assign|].
  apply assigns_only_assign_column.
Qed.

(** X1. The three transformers that assign write to the table they are
    given and to nothing else: whatever the strategy and whether they
    return or raise, afterwards the store is the store of before with that
    one table replaced, no table has been created, and the replaced table
    has the column labels, in order, and the row index it had.  They assign
    columns; they never add, drop, rename or reorder one. *)
Theorem assigning_transformers_frame strategy on_nan
    (σ : Store) (x : ref) (X : DataFrame) :
  σ !! x = Some X →
  (∃ X', (CustomTypeTransformer_transform x σ).2 = <[x := X']> σ
         ∧ names X' = names X ∧ index X' = index X)
  ∧ (∃ X', (MissingCategoricalsTransformer_transform strategy x σ).2 = <[x := X']> σ
           ∧ names X' = names X ∧ index X' = index X)
  ∧ (∃ X', (PipelineAwareLabelEncoder_transform on_nan x σ).2 = <[x := X']> σ
           ∧ names X' = names X ∧ index X' = index X).
Proof.
  intros Hx. split; [|split].
  - by apply assigns_only_CustomTypeTransformer.
  - by apply assigns_only_MissingCategoricals.
  - by apply assigns_only_PipelineAwareLabelEncoder.
Qed.

(** A selector followed by a transformer that assigns into the selection
    leaves every table that existed before as it was. *)
Lemma copy_then_assign {A} (sel : M ref) (T : ref → M A) (σ : Store) x X :
  σ !! x = Some X →
  (∃ Y, sel σ = (Ok (List.length σ), σ ++ [Y])) ∨ (∃ e, sel σ = (Raise e, σ)) →
  (∀ y, assigns_only y (T y)) →
  ((y ← sel; T y) σ).2 !! x = Some X.
Proof.
  intros Hx Hsel HT. rewrite bind_run.
  destruct Hsel as [[Y ->]|[e ->]]; [|done].
  destruct (HT _ _ Y (lookup_snoc σ Y)) as (Y' & -> & _).
  rewrite insert_snoc, lookup_app_l; [done|]. by eapply lookup_lt_Some.
Qed.

Lemma ColumnSelector_shape cols x (σ : Store) X :
  σ !! x = Some X →
  (∃ Y, ColumnSelector_transform cols x σ = (Ok (List.length σ), σ ++ [Y]))
  ∨ (∃ e, ColumnSelector_transform cols x σ = (Raise e, σ)).
Proof.
  intros Hx. rewrite (ColumnSelector_run cols x σ X Hx).
  destruct (getitem_list X cols); [left|right]; by eexists.
Qed.

Lemma TypeSelector_shape dtypes x (σ : Store) X :
  σ !! x = Some X →
  (∃ Y, TypeSelector_transform dtypes x σ = (Ok (List.length σ), σ ++ [Y]))
  ∨ (∃ e, TypeSelector_transform dtypes x σ = (Raise e, σ)).
Proof.
  intros Hx. rewrite (TypeSelector_run dtypes x σ X Hx).
  destruct (select_dtypes X dtypes); [left|right]; by eexists.
Qed.

(** X2. What a selector returns is a copy: when an assigning transformer
    is run on the table that ColumnSelector or TypeSelector returned, the
    table the selection was taken from is afterwards what it was, cell
    for cell.  Assignments into a selection do not write through. *)
Theorem selection_is_a_copy cols dtypes strategy on_nan
    (σ : Store) (x : ref) (X : DataFrame) :
  σ !! x = Some X →
  ((y ← ColumnSelector_transform cols x;
    MissingCategoricalsTransformer_transform strategy y) σ).2 !! x = Some X
  ∧ ((y ← ColumnSelector_transform cols x;
      PipelineAwareLabelEncoder_transform on_nan y) σ).2 !! x = Some X
  ∧ ((y ← ColumnSelector_transform cols x;
      CustomTypeTransformer_transform y) σ).2 !! x = Some X
  ∧ ((y ← TypeSelector_transform dtypes x;
      MissingCategoricalsTransformer_transform strategy y) σ).2 !! x = Some X
  ∧ ((y ← TypeSelector_transform dtypes x;
      PipelineAwareLabelEncoder_transform on_nan y) σ).2 !! x = Some X
  ∧ ((y ← TypeSelector_transform dtypes x;
      CustomTypeTransformer_transform y) σ).2 !! x = Some X.
Proof.
  intros Hx.
  pose proof (ColumnSelector_shape cols x σ X Hx) as HC.
  pose proof (TypeSelector_shape dtypes x σ X Hx) as HT.
  repeat split; apply copy_then_assign; try done.
  all: first [ apply assigns_only_MissingCategoricals
             | apply assigns_only_PipelineAwareLabelEncoder
             | apply assigns_only_CustomTypeTransformer ].
Qed.

(** ** CustomTypeTransformer: effect, missing columns, repetition *)

Lemma astype_category_twice s :
  astype_category (astype_category s) = astype_category s.
Proof. apply astype_category_id, astype_category_dtype. Qed.

Lemma astype_category_vocabulary s :
  dtype s ≠ category →
  NoDup (categories (astype_category s))
  ∧ ∀ c, c ∈ categories (astype_category s) ↔ c ∈ values s ∧ c ≠ NaN.
Proof.
  intros Hd. unfold astype_category.
  set (present := filter (λ c, c ≠ NaN) (values s)).
  assert (∀ c, c ∈ present ↔ c ∈ values s ∧ c ≠ NaN) as Hp.
  { intros c. unfold present. rewrite list_elem_of_filter. tauto. }
  destruct (dtype s); try done; cbn [categories];
    (destruct (sortable present);
     [split; [apply NoDup_sorted_unique|intros c; by rewrite elem_of_sorted_unique]
     |split; [apply NoDup_unique|intros c; by rewrite elem_of_unique]]).
Qed.

Lemma coerce_table_absent X c :
  c ∉ names X → coerce_table X c = Raise (KeyError c).
Proof.
  intros Hc. unfold coerce_table, loc_get.
  by apply lookup_col_None in Hc as ->.
Qed.

Lemma coerce_all_app pre suf : ∀ X,
  coerce_all (pre ++ suf) X
  = match (coerce_all pre X).1 with
    | Ok _ => coerce_all suf (coerce_all pre X).2
    | Raise e => (Raise e, (coerce_all pre X).2)
    end.
Proof.
  induction pre as [|c cs IH]; intros X; [done|].
  cbn [app coerce_all]. destruct (coerce_table X c) as [X'|e]; [apply IH|done].
Qed.

Lemma coerce_all_lookup cols d : ∀ X s,
  Forall (λ c, c ∈ names X) cols →
  lookup_col d (columns X) = Some s →
  lookup_col d (columns (coerce_all cols X).2)
  = Some (if decide (d ∈ cols) then astype_category s else s).
Proof.
  induction cols as [|c cs IH]; intros X s Hall Hd.
  { cbn [coerce_all snd]. by rewrite decide_False by apply not_elem_of_nil. }
  apply Forall_cons in Hall as [Hc Hall]. cbn [coerce_all].
  pose proof Hc as [sc Hsc]%lookup_col_names.
  unfold coerce_table, loc_get. rewrite Hsc. cbn [and_then].
  set (X' := loc_set X c (astype_category sc)).
  assert (names X' = names X) as Hn by (by apply loc_set_names).
  assert (lookup_col d (columns X')
          = if decide (d = c) then Some (astype_category sc)
            else lookup_col d (columns X)) as Hd' by (by apply loc_set_lookup).
  destruct (decide (d = c)) as [->|Hne].
  - assert (s = sc) as -> by congruence.
    rewrite (IH X' (astype_category sc)); [|by rewrite Hn|done].
    rewrite astype_category_twice, (decide_True (P := c ∈ c :: cs)) by (by left).
    by destruct (decide (c ∈ cs)).
  - rewrite (IH X' s); [|by rewrite Hn|by rewrite Hd'].
    f_equal. destruct (decide (d ∈ cs)) as [Hin|Hout].
    + by rewrite (decide_True (P := d ∈ c :: cs)) by (by right).
    + rewrite (decide_False (P := d ∈ c :: cs)); [done|].
      by intros [?|?]%elem_of_cons.
Qed.

(** X3. On a table that has the eight categorical columns (and unique
    column names) CustomTypeTransformer returns the table it was given,
    with every one of the eight columns categorical and its cells as they
    were.  A column that was categorical already is untouched; another
    gets as vocabulary the distinct present values of the column, each
    once and NaN not among them.  Every other column is untouched, and
    labels, column order and row index stay. *)
Theorem CustomTypeTransformer_effect (σ : Store) (x : ref) (X : DataFrame) :
  σ !! x = Some X →
  NoDup (names X) →
  Forall (λ c, c ∈ names X) categorical_columns →
  ∃ X', CustomTypeTransformer_transform x σ = (Ok x, <[x := X']> σ)
        ∧ names X' = names X
        ∧ index X' = index X
        ∧ (∀ d s, d ∉ categorical_columns →
             lookup_col d (columns X) = Some s → lookup_col d (columns X') = Some s)
        ∧ (∀ d s, d ∈ categorical_columns →
             lookup_col d (columns X) = Some s →
             ∃ s', lookup_col d (columns X') = Some s'
                   ∧ dtype s' = category
                   ∧ values s' = values s
                   ∧ (dtype s = category → s' = s)
                   ∧ (dtype s ≠ category →
                        NoDup (categories s')
                        ∧ ∀ c, c ∈ categories s' ↔ c ∈ values s ∧ c ≠ NaN)).
Proof.
  intros Hx Hnd Hall. rewrite (CustomTypeTransformer_run x σ X Hx).
  rewrite (coerce_all_Ok _ _ Hall). cbn [outcome].
  eexists. split; [done|]. split; [apply coerce_all_names|].
  split; [apply coerce_all_index|]. split.
  - intros d s Hd Hs. by rewrite (coerce_all_lookup _ d X s Hall Hs), decide_False.
  - intros d s Hd Hs. exists (astype_category s).
    rewrite (coerce_all_lookup _ d X s Hall Hs), decide_True by done.
    split; [done|]. split; [apply astype_category_dtype|].
    split; [apply astype_category_values|].
    split; [apply astype_category_id|apply astype_category_vocabulary].
Qed.

(** X4. When one of the eight columns is absent, CustomTypeTransformer
    raises KeyError for the first absent one in the order of its
    statements, and the statements before it have taken effect: in the
    caller's table the columns named before the absent one are categorical
    already, the others are as they were. *)
Theorem CustomTypeTransformer_missing_column pre c post
    (σ : Store) (x : ref) (X : DataFrame) :
  σ !! x = Some X →
  NoDup (names X) →
  categorical_columns = pre ++ c :: post →
  Forall (λ d, d ∈ names X) pre →
  c ∉ names X →
  ∃ X', CustomTypeTransformer_transform x σ = (Raise (KeyError c), <[x := X']> σ)
        ∧ names X' = names X
        ∧ index X' = index X
        ∧ (∀ d s, d ∉ pre →
             lookup_col d (columns X) = Some s → lookup_col d (columns X') = Some s)
        ∧ (∀ d s, d ∈ pre →
             lookup_col d (columns X) = Some s →
             ∃ s', lookup_col d (columns X') = Some s'
                   ∧ dtype s' = category ∧ values s' = values s).
Proof.
  intros Hx Hnd Hcols Hpre Hc. rewrite (CustomTypeTransformer_run x σ X Hx).
  rewrite Hcols, coerce_all_app, (coerce_all_Ok _ _ Hpre).
  cbn [coerce_all]. rewrite coerce_table_absent by (by rewrite coerce_all_names).
  cbn [fst snd outcome]. eexists. split; [done|].
  split; [apply coerce_all_names|]. split; [apply coerce_all_index|]. split.
  - intros d s Hd Hs. by rewrite (coerce_all_lookup _ d X s Hpre Hs), decide_False.
  - intros d s Hd Hs. exists (astype_category s).
    rewrite (coerce_all_lookup _ d X s Hpre Hs), decide_True by done.
    split; [done|]. split; [apply astype_category_dtype|apply astype_category_values].
Qed.

(** X5. Running CustomTypeTransformer again on the table it has worked on
    changes nothing: the second call ends as the first did (returns the
    table, or raises the same KeyError) and leaves every table of the
    store as the first call left it. *)
Theorem CustomTypeTransformer_idempotent (σ : Store) (x : ref) (X : DataFrame) :
  σ !! x = Some X →
  NoDup (names X) →
  CustomTypeTransformer_transform x (CustomTypeTransformer_transform x σ).2
  = CustomTypeTransformer_transform x σ.
Proof.
  intros Hx Hnd. rewrite (CustomTypeTransformer_run x σ X Hx). cbn [snd].
  assert (x < List.length σ)%nat as Hlt by (by eapply lookup_lt_Some).
  rewrite (CustomTypeTransformer_run x _ (coerce_all categorical_columns X).2)
    by (by apply list_lookup_insert_eq).
  by rewrite coerce_all_idem, list_insert_insert_eq.
Qed.

(** ** MissingCategoricalsTransformer: postconditions and failures *)

Lemma assign_columns_prefix f g (pre suf : list (string * Series)) :
  Forall (λ p : string * Series, f p.2 = Ok (g p.2)) pre →
  assign_columns f (pre ++ suf)
  = ((assign_columns f suf).1,
     ((λ p, (p.1, g p.2)) <$> pre) ++ (assign_columns f suf).2).
Proof.
  induction 1 as [|[n s] pre Hf _ IH]; cbn [app].
  - by destruct (assign_columns f suf).
  - cbn [assign_columns]. cbn [snd] in Hf. rewrite Hf, IH. by rewrite fmap_cons.
Qed.

Lemma lookup_col_fmap (g : Series → Series) n (cs : list (string * Series)) :
  lookup_col n ((λ p, (p.1, g p.2)) <$> cs) = g <$> lookup_col n cs.
Proof.
  induction cs as [|[m t] cs IH]; [done|].
  rewrite fmap_cons. cbn [lookup_col fst snd]. by destruct (decide (m = n)).
Qed.

(** X6. The fill-constant strategy on a table of categorical columns
    (unique column names) none of whose vocabularies holds "Unknown":
    the transform returns the table it was given, where every column is
    categorical still, has "Unknown" appended to its vocabulary, has as
    many cells as before and none missing; a cell that was missing holds
    "Unknown" and a cell that was present holds what it held. *)
Theorem MissingCategoricals_none_postcondition (σ : Store) (x : ref) (X : DataFrame) :
  σ !! x = Some X →
  NoDup (names X) →
  Forall (λ p : string * Series,
            dtype p.2 = category ∧ Str "Unknown" ∉ categories p.2) (columns X) →
  ∃ X', MissingCategoricalsTransformer_transform "none" x σ = (Ok x, <[x := X']> σ)
        ∧ names X' = names X
        ∧ index X' = index X
        ∧ ∀ n s, lookup_col n (columns X) = Some s →
            ∃ s', lookup_col n (columns X') = Some s'
                  ∧ dtype s' = category
                  ∧ categories s' = categories s ++ [Str "Unknown"]
                  ∧ List.length (values s') = List.length (values s)
                  ∧ (NaN ∉ values s')
                  ∧ ∀ i c, values s !! i = Some c →
                      values s' !! i = Some (if is_nan c then Str "Unknown" else c).
Proof.
  intros Hx Hnd Hall. rewrite (MissingCategoricals_none_fills σ x X Hx Hnd Hall).
  eexists. split; [done|]. unfold names. cbn [columns index].
  split; [by rewrite <- list_fmap_compose|]. split; [done|].
  intros n s Hs. eexists. split.
  { by rewrite (lookup_col_fmap
                  (λ s, mkSeries category (categories s ++ [Str "Unknown"])
                          (fill (Str "Unknown") <$> values s))), Hs. }
  cbn [dtype categories values]. split; [done|]. split; [done|].
  split; [by rewrite length_fmap|]. split; [by apply fill_notna|].
  intros i c. apply fill_lookup.
Qed.

(** X7. The fill-constant strategy reaching a column that is not
    categorical: the transform raises AttributeError, and the columns
    before it, categorical and without "Unknown" in their vocabulary, have
    been filled in the caller's table already; that column and the ones
    after it are as they were. *)
Theorem MissingCategoricals_none_not_categorical pre n s post
    (σ : Store) (x : ref) (X : DataFrame) :
  σ !! x = Some X →
  NoDup (names X) →
  columns X = pre ++ (n, s) :: post →
  Forall (λ p : string * Series,
            dtype p.2 = category ∧ Str "Unknown" ∉ categories p.2) pre →
  dtype s ≠ category →
  MissingCategoricalsTransformer_transform "none" x σ
  = (Raise (AttributeError "Can only use .cat accessor with a 'category' dtype"),
     <[x := mkFrame (index X)
              (((λ p, (p.1, mkSeries category (categories p.2 ++ [Str "Unknown"])
                              (fill (Str "Unknown") <$> values p.2))) <$> pre)
               ++ (n, s) :: post)]> σ).
Proof.
  intros Hx Hnd Hcols Hpre Hs.
  rewrite (MissingCategoricals_none_run x σ X Hx Hnd), Hcols.
  rewrite (assign_columns_prefix _
             (λ s, mkSeries category (categories s ++ [Str "Unknown"])
                     (fill (Str "Unknown") <$> values s))); last first.
  { eapply Forall_impl; [exact Hpre|]. intros p [Hd Hu]. by apply fill_unknown_fresh. }
  cbn [assign_columns].
  assert (fill_unknown s
          = Raise (AttributeError "Can only use .cat accessor with a 'category' dtype"))
    as ->; [|done].
  unfold fill_unknown, cat_add_categories. by destruct (dtype s).
Qed.

Lemma sort_desc_head l c k t :
  sort_desc l = (c, k) :: t → ∀ q, q ∈ l → (q.2 ≤ k)%nat.
Proof.
  revert c k t. induction l as [|p l IH]; intros c k t Hsort q Hq.
  { by apply elem_of_nil in Hq. }
  unfold sort_desc in *. cbn [foldr] in Hsort.
  destruct (foldr insert_desc [] l) as [|[c' k'] t'] eqn:E.
  - assert (l = []) as ->.
    { apply Permutation_nil_r. rewrite <- (sort_desc_perm l). unfold sort_desc. by rewrite E. }
    cbn in Hsort. injection Hsort as -> _. apply list_elem_of_singleton in Hq as ->. done.
  - specialize (IH c' k' t' eq_refl). cbn [insert_desc] in Hsort.
    destruct (decide (p.2 < (c', k').2)%nat) as [Hlt|Hge]; cbn [snd] in *.
    + injection Hsort as -> -> _. apply elem_of_cons in Hq as [->|Hq]; [lia|by apply IH].
    + injection Hsort as Hp _. apply elem_of_cons in Hq as [->|Hq].
      * by rewrite Hp.
      * specialize (IH q Hq). rewrite Hp in Hge. cbn [snd] in Hge. lia.
Qed.

Lemma most_frequent_maximal s :
  dtype s = category → categories s ≠ [] →
  ∀ c, c ∈ categories s →
    (count_of c (values s) ≤ count_of (most_frequent s) (values s))%nat.
Proof.
  intros Hd Hne c Hc. unfold most_frequent.
  destruct (value_counts s) as [|[top k] t] eqn:E.
  { pose proof (value_counts_category s Hd) as Hp. rewrite E in Hp.
    apply Permutation_nil_l in Hp. congruence. }
  unfold value_counts in E. rewrite Hd in E.
  assert ((top, k) ∈ (λ c, (c, count_of c (values s))) <$> categories s) as Hin.
  { rewrite <- (sort_desc_perm _). change (@map) with (@fmap list _) in E.
    rewrite E. by left. }
  apply list_elem_of_fmap in Hin as (c0 & [= -> ->] & _).
  apply (sort_desc_head _ _ _ _ E (c, count_of c (values s))).
  apply list_elem_of_fmap. by exists c.
Qed.

(** X8. The most-frequent strategy on a table of categorical columns with
    non-empty vocabularies fills each column with a category of that
    column that no other category of the column outnumbers: the cells that
    were missing hold it, the cells that were present and the vocabulary
    stay. *)
Theorem MissingCategoricals_most_frequent_mode (σ : Store) (x : ref) (X : DataFrame) :
  σ !! x = Some X →
  NoDup (names X) →
  Forall (λ p : string * Series, dtype p.2 = category ∧ categories p.2 ≠ [])
    (columns X) →
  ∃ X', MissingCategoricalsTransformer_transform "most_frequent" x σ
        = (Ok x, <[x := X']> σ)
        ∧ index X' = index X
        ∧ Forall2 (λ p p' : string * Series,
             p'.1 = p.1
             ∧ dtype p'.2 = category
             ∧ categories p'.2 = categories p.2
             ∧ ∃ top, top ∈ categories p.2
                 ∧ (∀ c, c ∈ categories p.2 →
                      (count_of c (values p.2) ≤ count_of top (values p.2))%nat)
                 ∧ values p'.2 = fill top <$> values p.2)
            (columns X) (columns X').
Proof.
  intros Hx Hnd Hall. rewrite (MissingCategoricals_most_frequent_run x σ X Hx Hnd).
  rewrite (assign_columns_Ok _
             (λ s, mkSeries category (categories s)
                     (fill (most_frequent s) <$> values s))); last first.
  { eapply Forall_impl; [exact Hall|]. intros p [Hd Hne].
    by apply fill_most_frequent_category. }
  eexists. split; [done|]. cbn [index columns]. split; [done|].
  apply Forall2_fmap_r, Forall_Forall2_diag.
  eapply Forall_impl; [exact Hall|]. intros p [Hd Hne]. cbn [fst snd dtype categories values].
  repeat split. exists (most_frequent p.2). split; [|split; [|done]].
  - by apply most_frequent_category.
  - by apply most_frequent_maximal.
Qed.

(** ** PipelineAwareLabelEncoder: dense codes, numbers, mixed columns *)

Lemma LabelEncoder_sortable on_nan y :
  existsb is_nan y = false → sortable y = true →
  LabelEncoder_fit_transform on_nan y = Ok (label_codes y).
Proof.
  intros Hnan Hsort. unfold LabelEncoder_fit_transform. rewrite Hnan, Hsort.
  f_equal. unfold label_codes. apply list_fmap_ext.
  intros i v Hv. f_equal. apply index_of_sorted_unique.
  by eapply list_elem_of_lookup_2.
Qed.

Lemma index_of_lookup l i v : NoDup l → l !! i = Some v → index_of v l = i.
Proof.
  revert i. induction l as [|c l IH]; intros i Hnd Hi; [done|].
  apply NoDup_cons in Hnd as [Hc Hnd]. cbn [index_of].
  destruct i as [|i]; cbn in Hi.
  - injection Hi as ->. by rewrite decide_True.
  - rewrite decide_False; [f_equal; by apply IH|].
    intros ->. apply Hc. by eapply list_elem_of_lookup_2.
Qed.

(** Every number below the count of distinct values is the rank of a
    value of the column. *)
Lemma rank_surjective y k :
  (k < n_distinct y)%nat → ∃ v, v ∈ y ∧ rank y v = k.
Proof.
  intros Hk. unfold n_distinct in Hk.
  rewrite <- (Permutation_length (sorted_unique_perm y)) in Hk.
  apply lookup_lt_is_Some in Hk as [v Hv]. exists v.
  assert (v ∈ y) as Hin.
  { apply elem_of_sorted_unique. by eapply list_elem_of_lookup_2. }
  split; [done|]. rewrite <- (index_of_sorted_unique y v Hin).
  apply index_of_lookup; [apply NoDup_sorted_unique|done].
Qed.

Lemma cell_lt_Num a b : cell_lt (Num a) (Num b) ↔ a < b.
Proof. unfold cell_lt. cbn [cell_leb]. lia. Qed.

(** X9. On a table (unique column names) whose columns have no missing
    cell and hold either only numbers or only text, the label encoder
    succeeds, and in every column the codes in use are exactly the
    integers from 0 up to the count of distinct values minus one: none of
    them is skipped.  In a column of numbers the codes follow the numeric
    order. *)
Theorem PipelineAwareLabelEncoder_dense on_nan (σ : Store) (x : ref) (X : DataFrame) :
  σ !! x = Some X →
  NoDup (names X) →
  Forall (λ p : string * Series,
            existsb is_nan (values p.2) = false ∧ sortable (values p.2) = true)
    (columns X) →
  PipelineAwareLabelEncoder_transform on_nan x σ
  = (Ok x,
     <[x := mkFrame (index X)
              ((λ p, (p.1, mkSeries int64 [] (Num <$> label_codes (values p.2))))
                 <$> columns X)]> σ)
  ∧ ∀ n s, (n, s) ∈ columns X →
      (∀ k, 0 ≤ k < Z.of_nat (n_distinct (values s)) →
         ∃ i, label_codes (values s) !! i = Some k)
      ∧ (∀ i c, label_codes (values s) !! i = Some c →
           0 ≤ c < Z.of_nat (n_distinct (values s)))
      ∧ (∀ i j a b c d,
           values s !! i = Some (Num a) → values s !! j = Some (Num b) →
           label_codes (values s) !! i = Some c →
           label_codes (values s) !! j = Some d →
           (a < b ↔ c < d)).
Proof.
  intros Hx Hnd Hall. split.
  - rewrite (PipelineAwareLabelEncoder_run on_nan x σ X Hx Hnd).
    rewrite (assign_columns_Ok _
               (λ s, mkSeries int64 [] (Num <$> label_codes (values s)))); [done|].
    eapply Forall_impl; [exact Hall|]. intros p [Hnan Hsort].
    unfold encoded. by rewrite LabelEncoder_sortable.
  - intros n s Hin. unfold label_codes. split; [|split].
    + intros k Hk.
      destruct (rank_surjective (values s) (Z.to_nat k)) as (v & Hv & Hr); [lia|].
      apply list_elem_of_lookup_1 in Hv as [i Hi]. exists i.
      rewrite list_lookup_fmap, Hi. cbn. f_equal. lia.
    + intros i c. rewrite list_lookup_fmap.
      destruct (values s !! i) as [v|] eqn:Hv; [|done]. intros [= <-].
      apply list_elem_of_lookup_2 in Hv.
      pose proof (rank_lt_n_distinct (values s) v Hv). lia.
    + intros i j a b c d Hi Hj. rewrite !list_lookup_fmap, Hi, Hj.
      intros [= <-] [= <-]. apply list_elem_of_lookup_2 in Hi.
      rewrite <- cell_lt_Num, (rank_order (values s) _ (Num b) Hi). lia.
Qed.

(** X10. The label encoder reaching a column without missing cell that
    holds both numbers and text: the transform raises TypeError, and the
    columns before it have been replaced by their codes in the caller's
    table already; that column and the ones after it are as they were. *)
Theorem PipelineAwareLabelEncoder_mixed_column on_nan pre n s post
    (σ : Store) (x : ref) (X : DataFrame) :
  σ !! x = Some X →
  NoDup (names X) →
  columns X = pre ++ (n, s) :: post →
  Forall (λ p : string * Series,
            existsb is_nan (values p.2) = false ∧ sortable (values p.2) = true) pre →
  existsb is_nan (values s) = false →
  sortable (values s) = false →
  PipelineAwareLabelEncoder_transform on_nan x σ
  = (Raise TypeError,
     <[x := mkFrame (index X)
              (((λ p, (p.1, mkSeries int64 [] (Num <$> label_codes (values p.2))))
                  <$> pre)
               ++ (n, s) :: post)]> σ).
Proof.
  intros Hx Hnd Hcols Hpre Hnan Hmixed.
  rewrite (PipelineAwareLabelEncoder_run on_nan x σ X Hx Hnd), Hcols.
  rewrite (assign_columns_prefix _
             (λ s, mkSeries int64 [] (Num <$> label_codes (values s)))); last first.
  { eapply Forall_impl; [exact Hpre|]. intros p [H1 H2].
    unfold encoded. by rewrite LabelEncoder_sortable. }
  cbn [assign_columns].
  assert (encoded on_nan s = Raise TypeError) as ->; [|done].
  unfold encoded, LabelEncoder_fit_transform. by rewrite Hnan, Hmixed.
Qed.

(** ** SparseToDataFrameTransformer *)

(** X11. SparseToDataFrameTransformer keeps the rows of the matrix as they
    are and labels the columns with the decimal numerals of their
    positions, counted from 0: there are as many labels as the matrix has
    columns, the label at position [i] is the numeral of [i], and no two
    columns get the same label. *)
Theorem SparseToDataFrameTransformer_labels {F : Type} (m : Matrix F) :
  records (SparseToDataFrameTransformer_transform m) = rows m
  ∧ List.length (labels (SparseToDataFrameTransformer_transform m)) = ncols m
  ∧ NoDup (labels (SparseToDataFrameTransformer_transform m))
  ∧ (∀ i, (i < ncols m)%nat →
       labels (SparseToDataFrameTransformer_transform m) !! i = Some (pretty i))
  ∧ (∀ i j l, labels (SparseToDataFrameTransformer_transform m) !! i = Some l →
       labels (SparseToDataFrameTransformer_transform m) !! j = Some l → i = j).
Proof.
  unfold SparseToDataFrameTransformer_transform. cbn [records labels].
  assert (NoDup (pretty <$> seq 0 (ncols m))) as Hnd.
  { apply NoDup_fmap_2; [apply _|apply NoDup_seq]. }
  split; [done|]. split; [by rewrite length_fmap, length_seq|].
  split; [done|]. split.
  - intros i Hi. rewrite list_lookup_fmap.
    by rewrite (proj2 (lookup_seq 0 (ncols m) i i)).
  - intros i j l Hi Hj. by eapply NoDup_lookup.
Qed.

(** ** The pipeline: schema errors and what the estimators receive *)

(** X12. The pipeline on a table that lacks columns (unique column names).
    If one of the eight columns that CustomTypeTransformer coerces is
    absent, the pipeline raises KeyError for the first absent one, also
    for education, which is not among the selected columns.  If those
    eight are there and a selected column is absent, the pipeline raises
    the KeyError of ColumnSelector with exactly the absent selected
    columns, no table has been created, and the caller's table has been
    coerced all the same. *)
Theorem preprocess_pipeline_schema_errors {F : Type}
    (scaler onehot : DataFrame → result (Matrix F))
    (on_nan : list Cell → result (list Z))
    (σ : Store) (x : ref) (X : DataFrame) :
  σ !! x = Some X →
  NoDup (names X) →
  (∀ pre c post,
     categorical_columns = pre ++ c :: post →
     Forall (λ d, d ∈ names X) pre → c ∉ names X →
     (preprocess_pipeline_transform scaler onehot on_nan x σ).1 = Raise (KeyError c))
  ∧ (Forall (λ d, d ∈ names X) categorical_columns →
     (∃ c, c ∈ selected_columns ∧ c ∉ names X) →
     ∃ (missing : gset string) X',
       preprocess_pipeline_transform scaler onehot on_nan x σ
       = (Raise (KeyError_columns missing), <[x := X']> σ)
       ∧ (∀ c, c ∈ missing ↔ c ∈ selected_columns ∧ c ∉ names X)
       ∧ names X' = names X
       ∧ ∀ d, d ∈ categorical_columns →
           ∃ s', lookup_col d (columns X') = Some s' ∧ dtype s' = category).
Proof.
  intros Hx Hnd. unfold preprocess_pipeline_transform. split.
  - intros pre c post Hcols Hpre Hc.
    rewrite bind_run, (CustomTypeTransformer_run x σ X Hx).
    rewrite Hcols, coerce_all_app, (coerce_all_Ok _ _ Hpre). cbn [coerce_all].
    by rewrite coerce_table_absent by (by rewrite coerce_all_names).
  - intros Hall (c & Hc & Hout).
    rewrite bind_run, (CustomTypeTransformer_run x σ X Hx).
    rewrite (coerce_all_Ok _ _ Hall). cbn [outcome].
    set (X1 := (coerce_all categorical_columns X).2).
    assert (names X1 = names X) as Hn1 by apply coerce_all_names.
    assert (x < List.length σ)%nat as Hlt by (by eapply lookup_lt_Some).
    rewrite bind_run, (ColumnSelector_run selected_columns x _ X1)
      by (by apply list_lookup_insert_eq).
    unfold getitem_list. rewrite decide_False; last first.
    { rewrite Forall_forall. intros H. apply Hout. rewrite <- Hn1. by apply H. }
    eexists _, X1. split; [done|]. split.
    { intros d. by rewrite elem_of_difference, !elem_of_list_to_set, Hn1. }
    split; [done|]. intros d Hd.
    by destruct (coerce_all_coerced categorical_columns d X Hall Hd) as (s' & ? & ?);
      exists s'.
Qed.

Lemma select_elem X cols p :
  p ∈ select X cols → p.1 ∈ cols ∧ lookup_col p.1 (columns X) = Some p.2.
Proof.
  unfold select. intros (c & Hc & Hp)%list_elem_of_omap.
  destruct (lookup_col c (columns X)) as [s|] eqn:Hs; [|done].
  cbn in Hp. by injection Hp as <-.
Qed.

Lemma select_elem_2 X cols c s :
  c ∈ cols → lookup_col c (columns X) = Some s → (c, s) ∈ select X cols.
Proof.
  intros Hc Hs. unfold select. apply list_elem_of_omap. exists c.
  split; [done|]. by rewrite Hs.
Qed.

(** Of the twelve selected columns, the categorical ones after coercion
    are the seven text columns. *)
Lemma categorical_selection_columns (X X1 : DataFrame) :
  (∀ c, c ∈ numeric_columns →
     ∃ s, lookup_col c (columns X1) = Some s ∧ dtype s ≠ category) →
  (∀ c, c ∈ selected_categorical →
     ∃ s, lookup_col c (columns X) = Some s
          ∧ lookup_col c (columns X1) = Some (astype_category s)) →
  filter (λ p : string * Series, dtype p.2 ∈ [category]) (select X1 selected_columns)
  = (λ p, (p.1, astype_category p.2)) <$> select X selected_categorical.
Proof.
  intros Hnum Hc.
  rewrite (list_filter_iff _ (λ p : string * Series, dtype p.2 = category))
    by (intros p; apply list_elem_of_singleton).
  destruct (Hnum "age") as (s1 & ? & ?); [by_compute|].
  destruct (Hnum "education-num") as (s2 & ? & ?); [by_compute|].
  destruct (Hnum "capital-gain") as (s3 & ? & ?); [by_compute|].
  destruct (Hnum "capital-loss") as (s4 & ? & ?); [by_compute|].
  destruct (Hnum "hours-per-week") as (s5 & ? & ?); [by_compute|].
  destruct (Hc "workclass") as (c1 & ? & ?); [by_compute|].
  destruct (Hc "marital-status") as (c2 & ? & ?); [by_compute|].
  destruct (Hc "occupation") as (c3 & ? & ?); [by_compute|].
  destruct (Hc "relationship") as (c4 & ? & ?); [by_compute|].
  destruct (Hc "race") as (c5 & ? & ?); [by_compute|].
  destruct (Hc "sex") as (c6 & ? & ?); [by_compute|].
  destruct (Hc "native-country") as (c7 & ? & ?); [by_compute|].
  unfold selected_columns, selected_categorical.
  repeat (erewrite select_cons by eassumption). rewrite !select_nil.
  rewrite !filter_cons_cons.
  rewrite (filter_single_False _ ("age", s1)) by done.
  rewrite (filter_single_False _ ("education-num", s2)) by done.
  rewrite (filter_single_False _ ("capital-gain", s3)) by done.
  rewrite (filter_single_False _ ("capital-loss", s4)) by done.
  rewrite (filter_single_False _ ("hours-per-week", s5)) by done.
  rewrite !filter_cons_True by apply astype_category_dtype.
  by rewrite filter_nil.
Qed.

Lemma fill_text (vs : list Cell) :
  Forall (λ v, is_num v = false) vs →
  Forall (λ c, is_str c = true) (fill (Str "Unknown") <$> vs).
Proof.
  intros Hvs. apply Forall_fmap. eapply Forall_impl; [exact Hvs|].
  intros v Hv. by destruct v.
Qed.

(** X13. The pipeline on a table of the Adult schema (unique column
    names) whose numeric columns are not categorical and whose seven
    selected text columns hold text or NaN and do not have the label
    "Unknown".  StandardScaler receives the int64 columns among age,
    education-num, capital-gain, capital-loss, hours-per-week, with the
    cells of the input.  OneHotEncoder receives the seven text columns,
    workclass first and native-country last, each as integer codes of
    its labels with "Unknown" standing in for the missing cells;
    education is coerced and then left out.  What the pipeline returns is
    the two results put side by side and relabelled, or the exception of
    the first of these steps that raises. *)
Theorem preprocess_pipeline_on_adult {F : Type}
    (scaler onehot : DataFrame → result (Matrix F))
    (on_nan : list Cell → result (list Z))
    (σ : Store) (x : ref) (X : DataFrame) :
  σ !! x = Some X →
  NoDup (names X) →
  Forall (λ c, c ∈ names X) adult_columns →
  Forall (λ p : string * Series, dtype p.2 ≠ category) (select X numeric_columns) →
  Forall (λ p : string * Series,
            Forall (λ v, is_num v = false) (values p.2)
            ∧ (Str "Unknown" ∉ values p.2)
            ∧ (dtype p.2 = category → Str "Unknown" ∉ categories p.2))
    (select X selected_categorical) →
  (preprocess_pipeline_transform scaler onehot on_nan x σ).1
  = and_then
      (scaler (mkFrame (index X)
                 (filter (λ p, dtype p.2 = int64) (select X numeric_columns))))
      (λ a,
        and_then
          (onehot (mkFrame (index X)
                     ((λ p, (p.1, filled_codes p.2)) <$> select X selected_categorical)))
          (λ b,
            and_then (hstack a b)
              (λ m, Ok (SparseToDataFrameTransformer_transform m)))).
Proof.
  intros Hx Hnd Hall Hnumeric Htext.
  destruct (preprocess_pipeline_run scaler onehot on_nan x σ X Hx Hnd) as [τ ->].
  cbn [fst]. unfold pipeline_value.
  assert (Forall (λ c, c ∈ names X) categorical_columns) as Hcat.
  { rewrite Forall_forall in Hall. apply Forall_forall. intros c Hc.
    apply Hall. revert c Hc. apply Forall_forall. by_compute. }
  rewrite (coerce_all_Ok _ _ Hcat). cbn [and_then].
  set (X1 := (coerce_all categorical_columns X).2).
  assert (names X1 = names X) as Hn1 by apply coerce_all_names.
  assert (index X1 = index X) as Hi1 by apply coerce_all_index.
  assert (NoDup (names X1)) as Hnd1 by (by rewrite Hn1).
  assert (Forall (λ c, c ∈ names X1) selected_columns) as Hsel.
  { rewrite Hn1. rewrite Forall_forall in Hall. apply Forall_forall. intros c Hc.
    apply Hall. revert c Hc. apply Forall_forall. by_compute. }
  assert (∀ c, c ∈ adult_columns → ∃ s, lookup_col c (columns X) = Some s) as Hhas.
  { intros c Hc. apply lookup_col_names. rewrite Forall_forall in Hall. by apply Hall. }
  unfold selected_value, getitem_list. rewrite decide_True by done.
  rewrite getitem_select by done. cbn [and_then]. rewrite Hi1.
  unfold union_value, numeric_value, categorical_value. cbn [select_dtypes and_then index columns].
  assert (∀ c, c ∈ numeric_columns → c ∈ adult_columns ∧ c ∉ categorical_columns)
    as Hnumcols by (apply Forall_forall; by_compute).
  assert (∀ c, c ∈ selected_categorical → c ∈ adult_columns ∧ c ∈ categorical_columns)
    as Hcatcols by (apply Forall_forall; by_compute).
  (* the numeric branch *)
  rewrite (numeric_selection_columns X X1); last first.
  { intros c Hc. destruct (coerce_all_coerced _ c X Hcat Hc) as (s & Hs & Hd).
    exists s. split; [done|]. by rewrite Hd. }
  { intros c Hc. destruct (Hnumcols c Hc) as [Ha Hn].
    destruct (Hhas c Ha) as [s Hs]. exists s. split; [|done].
    unfold X1. by rewrite coerce_all_other. }
  (* the categorical branch *)
  rewrite (categorical_selection_columns X X1); last first.
  { intros c Hc. destruct (Hcatcols c Hc) as [Ha Hin].
    destruct (Hhas c Ha) as [s Hs]. exists s. split; [done|]. unfold X1.
    by rewrite (coerce_all_lookup _ c X s Hcat Hs), decide_True. }
  { intros c Hc. destruct (Hnumcols c Hc) as [Ha Hn].
    destruct (Hhas c Ha) as [s Hs]. exists s. split.
    - unfold X1. by rewrite coerce_all_other.
    - rewrite Forall_forall in Hnumeric.
      by apply (Hnumeric (c, s)), select_elem_2. }
  assert (Forall (λ p : string * Series,
                    Forall (λ v, is_num v = false) (values p.2)
                    ∧ Str "Unknown" ∉ categories (astype_category p.2))
            (select X selected_categorical)) as Hgood.
  { eapply Forall_impl; [exact Htext|]. intros p (Hv & Hu & Hcats).
    split; [done|].
    destruct (decide (dtype p.2 = category)) as [Hd|Hd].
    - rewrite astype_category_id by done. by apply Hcats.
    - destruct (astype_category_vocabulary p.2 Hd) as [_ Hvoc].
      rewrite Hvoc. by intros [? _]. }
  rewrite (assign_columns_Ok fill_unknown
             (λ s, mkSeries category (categories s ++ [Str "Unknown"])
                     (fill (Str "Unknown") <$> values s))); last first.
  { apply Forall_fmap. eapply Forall_impl; [exact Hgood|]. intros p [_ Hu].
    cbn [snd]. apply fill_unknown_fresh; [apply astype_category_dtype|done]. }
  cbn [fst snd and_then].
  rewrite (assign_columns_Ok (encoded on_nan)
             (λ s, mkSeries int64 [] (Num <$> label_codes (values s)))); last first.
  { apply Forall_fmap, Forall_fmap. eapply Forall_impl; [exact Hgood|].
    intros p [Hv _]. apply encoded_labels. cbn [fst snd values].
    rewrite astype_category_values. by apply fill_text. }
  cbn [fst snd and_then]. rewrite <- !list_fmap_compose.
  destruct (scaler _) as [a|e]; cbn [and_then]; [|done].
  assert (∀ l : list (string * Series),
            ((λ p : string * Series,
                (p.1, mkSeries int64 [] (Num <$> label_codes (values p.2))))
               ∘ (λ p : string * Series,
                    (p.1, mkSeries category (categories p.2 ++ [Str "Unknown"])
                            (fill (Str "Unknown") <$> values p.2)))
               ∘ (λ p : string * Series, (p.1, astype_category p.2))) <$> l
            = (λ p, (p.1, filled_codes p.2)) <$> l) as Hmap.
  { intros l. apply list_fmap_ext. intros i p _. unfold filled_codes. cbn.
    by rewrite astype_category_values. }
  rewrite Hmap. by destruct (onehot _).
Qed.

(** ** Running a transformer again on its own result *)

Lemma fill_present v (l : list Cell) : NaN ∉ l → fill v <$> l = l.
Proof.
  induction l as [|c l IH]; [done|]. rewrite not_elem_of_cons. intros [Hc Hl].
  rewrite fmap_cons, IH by done. f_equal. by destruct c.
Qed.

(** X16. The most-frequent strategy applied again to the table it has
    filled (categorical columns, vocabularies non-empty and without NaN)
    returns and leaves the table as the first call left it: nothing is
    missing any more, so nothing is filled. *)
Theorem MissingCategoricals_most_frequent_again (σ : Store) (x : ref) (X : DataFrame) :
  σ !! x = Some X →
  NoDup (names X) →
  Forall (λ p : string * Series,
            dtype p.2 = category ∧ (NaN ∉ categories p.2) ∧ categories p.2 ≠ [])
    (columns X) →
  let first := MissingCategoricalsTransformer_transform "most_frequent" x σ in
  first.1 = Ok x
  ∧ MissingCategoricalsTransformer_transform "most_frequent" x first.2 = first.
Proof.
  intros Hx Hnd Hall first. subst first.
  rewrite (MissingCategoricals_most_frequent_run x σ X Hx Hnd).
  set (g := λ s, mkSeries category (categories s)
                   (fill (most_frequent s) <$> values s)).
  rewrite (assign_columns_Ok _ g); last first.
  { eapply Forall_impl; [exact Hall|]. intros p (Hd & _ & Hne).
    by apply fill_most_frequent_category. }
  cbn [fst snd outcome]. split; [done|].
  assert (x < List.length σ)%nat as Hlt by (by eapply lookup_lt_Some).
  set (X' := mkFrame (index X) ((λ p, (p.1, g p.2)) <$> columns X)).
  assert (NoDup (names X')) as Hnd'.
  { unfold names, X'. cbn [columns]. by rewrite <- list_fmap_compose. }
  rewrite (MissingCategoricals_most_frequent_run x _ X')
    by first [done | by apply list_lookup_insert_eq].
  rewrite (assign_columns_Ok _ (λ s, s)); last first.
  { unfold X'. cbn [columns]. apply Forall_fmap.
    eapply Forall_impl; [exact Hall|]. intros p (Hd & Hnan & Hne).
    unfold compose. cbn [snd].
    rewrite fill_most_frequent_category by (unfold g; done).
    unfold g. cbn [categories values]. rewrite fill_present; [done|].
    apply fill_notna. intros Heq. apply Hnan. rewrite <- Heq.
    by apply most_frequent_category. }
  cbn [fst snd outcome]. rewrite list_insert_insert_eq. f_equal. f_equal.
  unfold X'. cbn [index columns]. f_equal.
  rewrite <- list_fmap_compose. apply list_fmap_ext. by intros i [n s] _.
Qed.

(** Among distinct cells that are exactly the numbers below [n], those
    below [r] number [r]. *)
Lemma count_below (l : list Cell) (n r : nat) :
  NoDup l →
  (∀ u, u ∈ l ↔ ∃ k, (k < n)%nat ∧ u = Num (Z.of_nat k)) →
  (r ≤ n)%nat →
  List.length (filter (λ u, cell_lt u (Num (Z.of_nat r))) l) = r.
Proof.
  intros Hnd Hl Hr.
  assert (filter (λ u, cell_lt u (Num (Z.of_nat r))) l
          ≡ₚ (λ k, Num (Z.of_nat k)) <$> seq 0 r) as ->.
  { apply NoDup_Permutation.
    - by apply NoDup_filter.
    - apply NoDup_fmap_2; [|apply NoDup_seq].
      intros k1 k2 [= H]. lia.
    - intros u. rewrite list_elem_of_filter, Hl, list_elem_of_fmap. split.
      + intros [Hlt (k & Hk & ->)]. apply cell_lt_Num in Hlt.
        exists k. split; [done|]. apply elem_of_seq. lia.
      + intros (k & -> & Hk%elem_of_seq). split; [apply cell_lt_Num; lia|].
        exists k. split; [lia|done]. }
  by rewrite length_fmap, length_seq.
Qed.

(** Encoding the codes of a column gives the same codes. *)
Lemma label_codes_again y :
  label_codes (Num <$> label_codes y) = label_codes y.
Proof.
  unfold label_codes. rewrite <- !list_fmap_compose.
  apply list_fmap_ext. intros i v Hv. cbn. f_equal.
  apply list_elem_of_lookup_2 in Hv.
  unfold rank at 1. rewrite list_fmap_compose.
  apply (count_below _ (n_distinct y)).
  - apply NoDup_unique.
  - intros u. rewrite elem_of_unique, list_elem_of_fmap. split.
    + intros (z & -> & (w & -> & Hw)%list_elem_of_fmap).
      exists (rank y w). split; [|done]. by apply rank_lt_n_distinct.
    + intros (k & Hk & ->). destruct (rank_surjective y k Hk) as (w & Hw & <-).
      exists (Z.of_nat (rank y w)). split; [done|].
      apply list_elem_of_fmap. by exists w.
  - pose proof (rank_lt_n_distinct y v Hv). lia.
Qed.

(** X17. The label encoder applied again to the table it has encoded
    leaves it as it is: on a table of label columns (unique column names,
    no missing cell) the second call returns and the caller's table holds
    the same codes as after the first, because the codes of a column are
    dense and ordered. *)
Theorem PipelineAwareLabelEncoder_again on_nan (σ : Store) (x : ref) (X : DataFrame) :
  σ !! x = Some X →
  NoDup (names X) →
  Forall (λ p : string * Series, Forall (λ c, is_str c = true) (values p.2))
    (columns X) →
  let first := PipelineAwareLabelEncoder_transform on_nan x σ in
  first.1 = Ok x
  ∧ PipelineAwareLabelEncoder_transform on_nan x first.2 = first.
Proof.
  intros Hx Hnd Hall first. subst first.
  rewrite (PipelineAwareLabelEncoder_run on_nan x σ X Hx Hnd).
  set (g := λ s, mkSeries int64 [] (Num <$> label_codes (values s))).
  rewrite (assign_columns_Ok _ g); last first.
  { eapply Forall_impl; [exact Hall|]. intros p Hp. by apply encoded_labels. }
  cbn [fst snd outcome]. split; [done|].
  assert (x < List.length σ)%nat as Hlt by (by eapply lookup_lt_Some).
  set (X' := mkFrame (index X) ((λ p, (p.1, g p.2)) <$> columns X)).
  assert (NoDup (names X')) as Hnd'.
  { unfold names, X'. cbn [columns]. by rewrite <- list_fmap_compose. }
  rewrite (PipelineAwareLabelEncoder_run on_nan x _ X')
    by first [done | by apply list_lookup_insert_eq].
  rewrite (assign_columns_Ok _ (λ s, s)); last first.
  { unfold X'. cbn [columns]. apply Forall_fmap, Forall_forall. intros p _.
    unfold compose. cbn [snd]. unfold encoded. rewrite LabelEncoder_sortable.
    - cbn [and_then]. unfold g. cbn [values]. by rewrite label_codes_again.
    - unfold g. cbn [values]. apply not_true_iff_false.
      intros (c & Hc & Hnan)%existsb_exists.
      apply list_elem_of_In, list_elem_of_fmap in Hc as (k & -> & _). done.
    - unfold g, sortable. cbn [values]. apply orb_true_iff. left.
      apply forallb_forall. intros c Hc.
      apply list_elem_of_In, list_elem_of_fmap in Hc as (k & -> & _). done. }
  cbn [fst snd outcome]. rewrite list_insert_insert_eq. f_equal. f_equal.
  unfold X'. cbn [index columns]. f_equal.
  rewrite <- list_fmap_compose. apply list_fmap_ext. by intros i [n s] _.
Qed.

(** ** The label encoder and the assigning transformers, in general *)

(** C1, as the code has it.  On a table with unique column names in which
    no cell is missing and every column holds only text labels or only
    numbers, the transform succeeds and returns the table it was given,
    in which every column has been replaced by integer codes computed
    from that column alone: as many codes as cells, each at least 0 and
    below the number of distinct values of the column in this input, and
    ordered as the values are, a value sorting before another exactly
    when its code is smaller.  A column with at least one cell ends with
    dtype int64.  The transform takes no fitted state, so nothing of an
    earlier call enters. *)
Theorem PipelineAwareLabelEncoder_codes on_nan (σ : Store) (x : ref) (X : DataFrame) :
  σ !! x = Some X →
  NoDup (names X) →
  Forall (λ p : string * Series,
            existsb is_nan (values p.2) = false ∧ sortable (values p.2) = true)
    (columns X) →
  ∃ X', PipelineAwareLabelEncoder_transform on_nan x σ = (Ok x, <[x := X']> σ)
        ∧ names X' = names X
        ∧ index X' = index X
        ∧ ∀ n s, lookup_col n (columns X) = Some s →
            ∃ s', lookup_col n (columns X') = Some s'
                  ∧ values s' = Num <$> label_codes (values s)
                  ∧ List.length (values s') = List.length (values s)
                  ∧ (values s ≠ [] → dtype s' = int64)
                  ∧ (∀ i v, values s !! i = Some v →
                       ∃ c, values s' !! i = Some (Num c)
                            ∧ 0 ≤ c < Z.of_nat (n_distinct (values s)))
                  ∧ (∀ i j v w c d,
                       values s !! i = Some v → values s !! j = Some w →
                       values s' !! i = Some (Num c) →
                       values s' !! j = Some (Num d) →
                       (cell_lt v w ↔ c < d) ∧ (v = w ↔ c = d)).
Proof.
  intros Hx Hnd Hall.
  rewrite (PipelineAwareLabelEncoder_run on_nan x σ X Hx Hnd).
  rewrite (assign_columns_Ok _
             (λ s, mkSeries int64 [] (Num <$> label_codes (values s)))); last first.
  { eapply Forall_impl; [exact Hall|]. intros p [Hnan Hsort].
    unfold encoded. by rewrite LabelEncoder_sortable. }
  eexists. split; [done|]. unfold names. cbn [columns index snd].
  split; [by rewrite <- list_fmap_compose|]. split; [done|].
  intros n s Hs. eexists. split.
  { by rewrite (lookup_col_fmap
                  (λ s, mkSeries int64 [] (Num <$> label_codes (values s)))), Hs. }
  cbn [dtype values]. unfold label_codes.
  split; [done|]. split; [by rewrite !length_fmap|]. split; [done|]. split.
  - intros i v Hv. exists (Z.of_nat (rank (values s) v)).
    rewrite !list_lookup_fmap, Hv. split; [done|].
    pose proof (rank_lt_n_distinct (values s) v) as Hr.
    apply list_elem_of_lookup_2 in Hv. specialize (Hr Hv). lia.
  - intros i j v w c d Hv Hw. rewrite !list_lookup_fmap, Hv, Hw.
    intros [= <-] [= <-].
    apply list_elem_of_lookup_2 in Hv, Hw. split.
    + rewrite (rank_order (values s) v w Hv). lia.
    + split; [by intros ->|]. intros Heq. apply (rank_inj (values s)); [done..|lia].
Qed.



(** * The transformers at concrete tables *)

(** C6. The fill-constant strategy on a categorical column whose vocabulary
    holds "Unknown" already: instead of leaving the vocabulary as it is and
    filling the missing cell, the transform raises ValueError and the cell
    stays missing. *)
Theorem MissingCategoricals_none_Unknown_in_vocabulary :
  MissingCategoricalsTransformer_transform "none" 0%nat [unknown_table]
  = (Raise (ValueError "new categories must not include old categories"),
     [unknown_table])
  ∧ Forall (λ p : string * Series,
              dtype p.2 = category ∧ Str "Unknown" ∈ categories p.2 ∧ NaN ∈ values p.2)
      (columns unknown_table).
Proof. split; [reflexivity|by_compute]. Qed.

(** The same on a table that went through the transform before: the
    first call adds "Unknown" to every vocabulary of the caller's table, so
    a second call on that table raises. *)
Example MissingCategoricals_none_second_call :
  let first := MissingCategoricalsTransformer_transform "none" 0%nat [gaps_table] in
  first.1 = Ok 0%nat
  ∧ (MissingCategoricalsTransformer_transform "none" 0%nat first.2).1
    = Raise (ValueError "new categories must not include old categories").
Proof. split; reflexivity. Qed.

(** C7. A strategy that is neither of the two known ones, on a table
    without columns: the transform returns the table and raises nothing. *)
Theorem MissingCategoricals_unknown_strategy_no_columns :
  "median" ≠ "none" ∧ "median" ≠ "most_frequent"
  ∧ MissingCategoricalsTransformer_transform "median" 0%nat [no_columns_table]
    = (Ok 0%nat, [no_columns_table]).
Proof. split; [done|]. split; [done|reflexivity]. Qed.

(** Such a table is what the categorical branch selects from a table
    without categorical columns. *)
Example TypeSelector_then_unknown_strategy :
  let X := mkFrame 3 [("age", mkSeries int64 [] [Num 39; Num 50; Num 38])] in
  (c ← TypeSelector_transform [category] 0%nat;
   MissingCategoricalsTransformer_transform "median" c) [X]
  = (Ok 1%nat, [X; no_columns_table]).
Proof. reflexivity. Qed.

Lemma numeric_branch_selects_int64_witness :
  ∃ (n : ref) (σ' : Store) (N : DataFrame),
    numeric_branch_input 0%nat [adult_sample] = (Ok n, σ')
    ∧ σ' !! n = Some N
    ∧ index N = index adult_sample
    ∧ columns N = filter (λ p, dtype p.2 = int64) (select adult_sample numeric_columns)
    ∧ names N `sublist_of` numeric_columns.
Proof.
  apply (numeric_branch_selects_int64 [adult_sample] 0%nat adult_sample);
    [reflexivity|by_compute|by_compute].
Defined.

(** C2 fails where a numeric column is stored as float64: with one age
    missing the table has the schema's columns and a numeric age, and the
    numeric branch hands four columns to the scaler, age not among them. *)
Lemma numeric_branch_drops_float_age :
  Forall (λ c, c ∈ names adult_float_age) adult_columns
  ∧ dtype <$> lookup_col "age" (columns adult_float_age) = Some float64
  ∧ (numeric_branch_input 0%nat [adult_float_age]).1 = Ok 2%nat
  ∧ names <$> (numeric_branch_input 0%nat [adult_float_age]).2 !! 2%nat
    = Some ["education-num"; "capital-gain"; "capital-loss"; "hours-per-week"]
  ∧ "age" ∈ numeric_columns.
Proof. split; [by_compute|]. repeat split; (reflexivity || by_compute). Qed.

(** C1 fails on a table of categorical columns one of which mixes a
    number and a text: nothing is missing, every column has dtype
    category, and the transform raises TypeError instead of returning
    codes, whatever LabelEncoder does with missing cells. *)
Lemma PipelineAwareLabelEncoder_mixed_category_raises :
  Forall (λ p : string * Series,
            dtype p.2 = category ∧ existsb is_nan (values p.2) = false)
    (columns mixed_category_table)
  ∧ ∀ on_nan,
      PipelineAwareLabelEncoder_transform on_nan 0%nat [mixed_category_table]
      = (Raise TypeError, [mixed_category_table]).
Proof. split; [by_compute|]. intros on_nan. reflexivity. Qed.

Lemma PipelineAwareLabelEncoder_codes_witness :
  ∃ X',
    PipelineAwareLabelEncoder_transform sample_on_nan 0%nat [kinds_table]
    = (Ok 0%nat, [X'])
    ∧ names X' = ["age"; "sex"]
    ∧ (values <$> lookup_col "age" (columns X')) = Some [Num 0; Num 1; Num 0]
    ∧ (values <$> lookup_col "sex" (columns X')) = Some [Num 1; Num 0; Num 1].
Proof.
  destruct (PipelineAwareLabelEncoder_codes sample_on_nan [kinds_table] 0%nat kinds_table)
    as (X' & Hrun & Hnames & _ & Hcols); [reflexivity|by_compute|by_compute|].
  exists X'. split; [exact Hrun|]. split; [exact Hnames|]. split.
  - destruct (Hcols "age" (mkSeries int64 [] [Num 39; Num 50; Num 39]) eq_refl)
      as (s' & Hl & Hv & _). rewrite Hl. cbn [fmap option_fmap option_map].
    rewrite Hv. by_compute.
  - destruct (Hcols "sex" (mkSeries object [] [Str "Male"; Str "Female"; Str "Male"])
                eq_refl) as (s' & Hl & Hv & _). rewrite Hl.
    cbn [fmap option_fmap option_map]. rewrite Hv. by_compute.
Defined.



Lemma transform_twice_same_witness :
  let first :=
    preprocess_pipeline_transform sample_scaler sample_scaler sample_on_nan
      0%nat [adult_sample] in
  let second :=
    preprocess_pipeline_transform sample_scaler sample_scaler sample_on_nan
      0%nat first.2 in
  second.1 = first.1
  ∧ first.1 = pipeline_value sample_scaler sample_scaler sample_on_nan adult_sample.
Proof.
  apply (transform_twice_same sample_scaler sample_scaler sample_on_nan
           [adult_sample] 0%nat adult_sample); [reflexivity|by_compute].
Defined.

Lemma ColumnSelector_missing_witness :
  ∃ missing : gset string,
    ColumnSelector_transform ["age"; "fnlwgt"; "sex"; "income"] 0%nat [adult_sample]
    = (Raise (KeyError_columns missing), [adult_sample])
    ∧ missing = list_to_set ["age"; "fnlwgt"; "sex"; "income"]
                  ∖ list_to_set (names adult_sample)
    ∧ missing ≠ ∅
    ∧ ∀ c, c ∈ missing
           ↔ c ∈ ["age"; "fnlwgt"; "sex"; "income"] ∧ c ∉ names adult_sample.
Proof.
  apply (ColumnSelector_missing ["age"; "fnlwgt"; "sex"; "income"]
           [adult_sample] 0%nat adult_sample); [reflexivity|].
  exists "fnlwgt". split; by_compute.
Defined.

Lemma ColumnSelector_projection_witness :
  ∃ Y, ColumnSelector_transform selected_columns 0%nat [adult_sample]
       = (Ok 1%nat, [adult_sample] ++ [Y])
       ∧ names Y = selected_columns
       ∧ Forall (λ p, p ∈ columns adult_sample) (columns Y)
       ∧ index Y = index adult_sample.
Proof.
  apply (ColumnSelector_projection selected_columns [adult_sample] 0%nat adult_sample);
    [reflexivity|by_compute|by_compute].
Defined.

Lemma TypeSelector_selection_witness :
  ∃ Y, TypeSelector_transform [float64] 0%nat [adult_sample]
       = (Ok 1%nat, [adult_sample] ++ [Y])
       ∧ index Y = index adult_sample
       ∧ columns Y = filter (λ p, dtype p.2 ∈ [float64]) (columns adult_sample)
       ∧ columns Y `sublist_of` columns adult_sample
       ∧ (∀ p, p ∈ columns Y ↔ p ∈ columns adult_sample ∧ dtype p.2 ∈ [float64])
       ∧ (Forall (λ p, dtype p.2 ∉ [float64]) (columns adult_sample) → columns Y = []).
Proof.
  apply (TypeSelector_selection [float64] [adult_sample] 0%nat adult_sample);
    [reflexivity|done].
Defined.

(** C9 fails for the empty list of dtypes: no column's dtype is in it,
    and the transform raises ValueError instead of returning a table
    without columns. *)
Lemma TypeSelector_no_dtypes_raises :
  Forall (λ p : string * Series, dtype p.2 ∉ @nil Dtype) (columns adult_sample)
  ∧ TypeSelector_transform [] 0%nat [adult_sample]
    = (Raise (ValueError "at least one of include or exclude must be nonempty"),
       [adult_sample]).
Proof. split; [by_compute|reflexivity]. Qed.

Lemma MissingCategoricals_most_frequent_spec_witness :
  (Exists (λ p : string * Series, categories p.2 = []) (columns gaps_table) →
   (MissingCategoricalsTransformer_transform "most_frequent" 0%nat [gaps_table]).1
   = Raise IndexError)
  ∧ (Forall (λ p : string * Series, categories p.2 ≠ []) (columns gaps_table) →
     ∃ X',
       MissingCategoricalsTransformer_transform "most_frequent" 0%nat [gaps_table]
       = (Ok 0%nat, <[0%nat := X']> [gaps_table])
       ∧ index X' = index gaps_table
       ∧ columns X'
         = (λ p, (p.1, mkSeries category (categories p.2)
                         (fill (most_frequent p.2) <$> values p.2)))
             <$> columns gaps_table
       ∧ Forall (λ p : string * Series, most_frequent p.2 ∈ categories p.2)
           (columns gaps_table)
       ∧ Forall (λ p' : string * Series, NaN ∉ values p'.2) (columns X')).
Proof.
  apply (MissingCategoricals_most_frequent_spec [gaps_table] 0%nat gaps_table);
    [reflexivity|by_compute|by_compute].
Defined.

(** C10 fails for a categorical column whose cells are all missing and
    whose vocabulary is not empty: the counts have one entry per category,
    so the lookup of the first entry succeeds and the transform fills the
    column with the first category instead of failing. *)
Lemma MissingCategoricals_most_frequent_all_missing :
  Forall (λ p : string * Series, Forall (λ c, c = NaN) (values p.2))
    (columns all_missing_table)
  ∧ MissingCategoricalsTransformer_transform "most_frequent" 0%nat [all_missing_table]
    = (Ok 0%nat,
       [mkFrame 2
          [("workclass", mkSeries category [Str "Private"; Str "State-gov"]
              [Str "Private"; Str "Private"])]]).
Proof. split; [by_compute|reflexivity]. Qed.

(** * Further properties at concrete tables *)

Lemma assigning_transformers_frame_witness :
  (∃ X', (CustomTypeTransformer_transform 0%nat [adult_sample]).2
         = <[0%nat := X']> [adult_sample]
         ∧ names X' = names adult_sample ∧ index X' = index adult_sample)
  ∧ (∃ X', (MissingCategoricalsTransformer_transform "none" 0%nat [adult_sample]).2
           = <[0%nat := X']> [adult_sample]
           ∧ names X' = names adult_sample ∧ index X' = index adult_sample)
  ∧ (∃ X', (PipelineAwareLabelEncoder_transform sample_on_nan 0%nat [adult_sample]).2
           = <[0%nat := X']> [adult_sample]
           ∧ names X' = names adult_sample ∧ index X' = index adult_sample).
Proof.
  apply (assigning_transformers_frame "none" sample_on_nan [adult_sample] 0%nat
           adult_sample).
  reflexivity.
Defined.

Lemma selection_is_a_copy_witness :
  ((y ← TypeSelector_transform [category] 0%nat;
    MissingCategoricalsTransformer_transform "none" y) [gaps_table]).2 !! 0%nat
  = Some gaps_table.
Proof.
  destruct (selection_is_a_copy [] [category] "none" sample_on_nan
              [gaps_table] 0%nat gaps_table) as (_ & _ & _ & H & _);
    [reflexivity|exact H].
Defined.

Lemma CustomTypeTransformer_effect_witness :
  (CustomTypeTransformer_transform 0%nat [adult_sample]).1 = Ok 0%nat.
Proof.
  destruct (CustomTypeTransformer_effect [adult_sample] 0%nat adult_sample)
    as (X' & -> & _); [reflexivity|by_compute|by_compute|reflexivity].
Defined.

Lemma CustomTypeTransformer_missing_column_witness :
  (CustomTypeTransformer_transform 0%nat [adult_no_occupation]).1
  = Raise (KeyError "occupation").
Proof.
  destruct (CustomTypeTransformer_missing_column
              ["workclass"; "education"; "marital-status"] "occupation"
              ["relationship"; "race"; "sex"; "native-country"]
              [adult_no_occupation] 0%nat adult_no_occupation)
    as (X' & -> & _);
    [reflexivity|by_compute|reflexivity|by_compute|by_compute|reflexivity].
Defined.

Lemma CustomTypeTransformer_idempotent_witness :
  CustomTypeTransformer_transform 0%nat
    (CustomTypeTransformer_transform 0%nat [adult_sample]).2
  = CustomTypeTransformer_transform 0%nat [adult_sample].
Proof.
  apply (CustomTypeTransformer_idempotent [adult_sample] 0%nat adult_sample);
    [reflexivity|by_compute].
Defined.

Lemma MissingCategoricals_none_postcondition_witness :
  (MissingCategoricalsTransformer_transform "none" 0%nat [gaps_table]).1 = Ok 0%nat.
Proof.
  destruct (MissingCategoricals_none_postcondition [gaps_table] 0%nat gaps_table)
    as (X' & -> & _); [reflexivity|by_compute|by_compute|reflexivity].
Defined.

Lemma MissingCategoricals_none_not_categorical_witness :
  MissingCategoricalsTransformer_transform "none" 0%nat [half_coerced_table]
  = (Raise (AttributeError "Can only use .cat accessor with a 'category' dtype"),
     [mkFrame 2
        [("sex", mkSeries category [Str "Female"; Str "Male"; Str "Unknown"]
            [Str "Male"; Str "Unknown"]);
         ("workclass", mkSeries object [] [Str "Private"; NaN])]]).
Proof.
  apply (MissingCategoricals_none_not_categorical
           [("sex", mkSeries category [Str "Female"; Str "Male"] [Str "Male"; NaN])]
           "workclass" (mkSeries object [] [Str "Private"; NaN]) []
           [half_coerced_table] 0%nat half_coerced_table);
    [reflexivity|by_compute|reflexivity|by_compute|done].
Defined.

Lemma MissingCategoricals_most_frequent_mode_witness :
  (MissingCategoricalsTransformer_transform "most_frequent" 0%nat [gaps_table]).1
  = Ok 0%nat.
Proof.
  destruct (MissingCategoricals_most_frequent_mode [gaps_table] 0%nat gaps_table)
    as (X' & -> & _); [reflexivity|by_compute|by_compute|reflexivity].
Defined.

Lemma PipelineAwareLabelEncoder_dense_witness :
  PipelineAwareLabelEncoder_transform sample_on_nan 0%nat [kinds_table]
  = (Ok 0%nat,
     [mkFrame 3
        [("age", mkSeries int64 [] [Num 0; Num 1; Num 0]);
         ("sex", mkSeries int64 [] [Num 1; Num 0; Num 1])]]).
Proof.
  destruct (PipelineAwareLabelEncoder_dense sample_on_nan [kinds_table] 0%nat kinds_table)
    as [H _]; [reflexivity|by_compute|by_compute|exact H].
Defined.

Lemma PipelineAwareLabelEncoder_mixed_column_witness :
  PipelineAwareLabelEncoder_transform sample_on_nan 0%nat [mixed_table]
  = (Raise TypeError,
     [mkFrame 2
        [("sex", mkSeries int64 [] [Num 1; Num 0]);
         ("grade", mkSeries object [] [Num 1; Str "one"])]]).
Proof.
  apply (PipelineAwareLabelEncoder_mixed_column sample_on_nan
           [("sex", mkSeries object [] [Str "Male"; Str "Female"])]
           "grade" (mkSeries object [] [Num 1; Str "one"]) []
           [mixed_table] 0%nat mixed_table);
    [reflexivity|by_compute|reflexivity|by_compute|reflexivity|reflexivity].
Defined.

Lemma preprocess_pipeline_schema_errors_witness :
  (preprocess_pipeline_transform sample_scaler sample_scaler sample_on_nan
     0%nat [adult_no_occupation]).1
  = Raise (KeyError "occupation").
Proof.
  destruct (preprocess_pipeline_schema_errors sample_scaler sample_scaler sample_on_nan
              [adult_no_occupation] 0%nat adult_no_occupation) as [H _];
    [reflexivity|by_compute|].
  apply (H ["workclass"; "education"; "marital-status"] "occupation"
           ["relationship"; "race"; "sex"; "native-country"]);
    [reflexivity|by_compute|by_compute].
Defined.

(** The second case of the schema errors: age is a selected column. *)
Example preprocess_pipeline_without_age :
  (preprocess_pipeline_transform sample_scaler sample_scaler sample_on_nan
     0%nat [adult_no_age]).1
  = Raise (KeyError_columns {["age"]}).
Proof. by vm_compute. Qed.

Lemma preprocess_pipeline_on_adult_witness :
  (preprocess_pipeline_transform sample_scaler sample_scaler sample_on_nan
     0%nat [adult_sample]).1
  = and_then
      (sample_scaler
         (mkFrame 3 (filter (λ p, dtype p.2 = int64) (select adult_sample numeric_columns))))
      (λ a,
        and_then
          (sample_scaler
             (mkFrame 3
                ((λ p, (p.1, filled_codes p.2)) <$> select adult_sample selected_categorical)))
          (λ b,
            and_then (hstack a b)
              (λ m, Ok (SparseToDataFrameTransformer_transform m)))).
Proof.
  apply (preprocess_pipeline_on_adult sample_scaler sample_scaler sample_on_nan
           [adult_sample] 0%nat adult_sample);
    [reflexivity|by_compute|by_compute|by_compute|by_compute].
Defined.

Lemma preprocess_pipeline_caller_table_witness :
  let σ' := (preprocess_pipeline_transform sample_scaler sample_scaler sample_on_nan
               0%nat [adult_sample]).2 in
  σ' !! 0%nat = Some (coerce_all categorical_columns adult_sample).2
  ∧ ∀ y Z, y ≠ 0%nat → [adult_sample] !! y = Some Z → σ' !! y = Some Z.
Proof.
  apply (preprocess_pipeline_caller_table sample_scaler sample_scaler sample_on_nan
           [adult_sample] 0%nat adult_sample); [reflexivity|by_compute].
Defined.

Lemma MissingCategoricals_unknown_strategy_witness :
  MissingCategoricalsTransformer_transform "median" 0%nat [gaps_table]
  = (Raise (Exception_ "Unknown strategy to fill na categoricals"), [gaps_table]).
Proof.
  apply (MissingCategoricals_unknown_strategy "median" [gaps_table] 0%nat gaps_table);
    [reflexivity|done|done|done].
Defined.

Lemma MissingCategoricals_most_frequent_again_witness :
  let first := MissingCategoricalsTransformer_transform "most_frequent" 0%nat
                 [gaps_table] in
  first.1 = Ok 0%nat
  ∧ MissingCategoricalsTransformer_transform "most_frequent" 0%nat first.2 = first.
Proof.
  apply (MissingCategoricals_most_frequent_again [gaps_table] 0%nat gaps_table);
    [reflexivity|by_compute|by_compute].
Defined.

Lemma PipelineAwareLabelEncoder_again_witness :
  let first := PipelineAwareLabelEncoder_transform sample_on_nan 0%nat [label_table] in
  first.1 = Ok 0%nat
  ∧ PipelineAwareLabelEncoder_transform sample_on_nan 0%nat first.2 = first.
Proof.
  apply (PipelineAwareLabelEncoder_again sample_on_nan [label_table] 0%nat label_table);
    [reflexivity|by_compute|by_compute].
Defined.
